(** * cryptofeed: the feed handler (cryptofeed/feedhandler.py)

    A shallow embedding of [FeedHandler] and of the part of asyncio it
    drives, with the properties of registration, start-up and the two-phase
    shutdown ([stop], then [close]).

    Python objects are records, the handler's methods are computations in a
    state-and-exception monad over a [World] (the handler object, the event
    loop of the thread, the heap of aggregator objects and the chronological
    trace of what the handler asked of its collaborators).  An exception
    keeps every mutation made before it was raised, as in Python. *)

From Stdlib Require Import List String Ascii Bool Arith ZArith QArith Lia Lqa.
From Stdlib Require Import DecimalString.
Import ListNotations.
Open Scope string_scope.
Open Scope list_scope.
Open Scope nat_scope.

Notation "a ^^ b" := (String.append a b) (at level 60, right associativity).

(** ** Python exceptions and values *)

(** The exception classes that appear in the handler or cross it.
    [SystemExit] and [KeyboardInterrupt] derive from [BaseException] only;
    so does [CancelledError] since Python 3.8.  [Fault] stands for any
    other [Exception] raised by a collaborator's code. *)
Inductive exn : Type :=
| SystemExit
| KeyboardInterrupt
| CancelledError
| ValueError (msg : string)
| TypeError (msg : string)
| IndexError (msg : string)
| RuntimeError (msg : string)
| Fault (msg : string).

(** asyncio re-raises these two out of a task step or a callback; every
    other exception of a task is stored in the task. *)
Definition is_exit (e : exn) : bool :=
  match e with
  | SystemExit | KeyboardInterrupt => true
  | _ => false
  end.

(** [isinstance(e, Exception)] *)
Definition is_Exception (e : exn) : bool :=
  match e with
  | SystemExit | KeyboardInterrupt | CancelledError => false
  | _ => true
  end.

(** [repr(e)], as ['%r'] prints it in a log record. *)
Definition repr_exn (e : exn) : string :=
  match e with
  | SystemExit => "SystemExit()"
  | KeyboardInterrupt => "KeyboardInterrupt()"
  | CancelledError => "CancelledError()"
  | ValueError m => "ValueError('" ^^ m ^^ "')"
  | TypeError m => "TypeError('" ^^ m ^^ "')"
  | IndexError m => "IndexError('" ^^ m ^^ "')"
  | RuntimeError m => "RuntimeError('" ^^ m ^^ "')"
  | Fault m => "Exception('" ^^ m ^^ "')"
  end.

(** [str(n)] for a length. *)
Definition str_of_nat (n : nat) : string :=
  NilZero.string_of_uint (Nat.to_uint n).

(** [repr] of a list of plain strings: [['A', 'B']]. *)
Definition repr_str_list (l : list string) : string :=
  "[" ^^ String.concat ", " (map (fun s => "'" ^^ s ^^ "'") l) ^^ "]".

(** [cryptofeed.config.Config]: the fields [__init__] reads. *)
Record Config : Type := {
  log_filename : string;
  log_level : string;
  log_msg : option string;
  uvloop : bool
}.

(** Values passed as keyword arguments to a feed class.  [PRef a] is a
    reference to the object at address [a] of the heap: two feeds holding
    [PRef a] share one object. *)
#[local] Unset Elimination Schemes.
Inductive pyval : Type :=
| PStr (s : string)
| PList (l : list pyval)
| PDict (d : list (string * pyval))
| PConfig (c : Config)
| PRef (a : nat).
#[local] Set Elimination Schemes.

Definition kwargs : Type := list (string * pyval).

(** ** Coroutines *)

Inductive outcome : Type :=
| Returned
| Raised (e : exn).

(** A coroutine is the tree of its suspension points.  [Ret o] runs to its
    end without suspending; [Await k kc] runs to an [await], from which it
    goes on as [k] when resumed and as [kc] when [CancelledError] is thrown
    into it (a coroutine that does not catch it has
    [kc = Ret (Raised CancelledError)]). *)
Inductive coro : Type :=
| Ret (o : outcome)
| Await (k kc : coro).

Definition cancelled : coro := Ret (Raised CancelledError).

(** [n] suspension points, each giving way to a cancellation, then [o]. *)
Fixpoint after (n : nat) (o : outcome) : coro :=
  match n with
  | 0 => Ret o
  | S n' => Await (after n' o) cancelled
  end.

(** The outcome of a coroutine that is never cancelled. *)
Fixpoint final (c : coro) : outcome :=
  match c with
  | Ret o => o
  | Await k _ => final k
  end.

Fixpoint depth (c : coro) : nat :=
  match c with
  | Ret _ => 0
  | Await k kc => S (Nat.max (depth k) (depth kc))
  end.

(** No path of the coroutine ends in [SystemExit] or [KeyboardInterrupt]. *)
Fixpoint no_exit (c : coro) : bool :=
  match c with
  | Ret (Raised e) => negb (is_exit e)
  | Ret Returned => true
  | Await k kc => no_exit k && no_exit kc
  end.

(** ** The trace *)

Inductive level : Type := INFO | CRITICAL | EXCEPTION.

Inductive signal : Type := SIGABRT | SIGINT | SIGTERM | SIGHUP.

(** What the handler does, in the order it does it: log records, calls
    into the loop and into the feeds, the assignment of the [retries] flag,
    the tasks that finish while the loop is driven, and the entry and exit
    of [stop] and [close]. *)
Inductive event : Type :=
| Log (lv : level) (msg : string)
| SignalSet (through_loop : bool) (s : signal)
| FeedStart (id : string)
| SetRetries (z : Z)
| ExceptionHandlerSet (h : string)
| RunForever
| TaskCreated (tid : nat)
| TaskCancel (tid : nat)
| TaskFinished (tid : nat) (o : outcome)
| LoopStop
| AsyncgensShutdown
| LoopClose
| Enter (f : string)
| Leave (f : string) (normally : bool).

(** ** asyncio: tasks and the event loop

    The model of the library follows CPython 3.8/3.9 (the handler passes
    [loop=] to [gather], and falls back when [Task.set_name] is missing).
    One loop iteration resumes every task that is not done once, in the
    order of creation.  Every suspended task is ready at every iteration,
    and [run_until_complete] returns at the end of the first iteration that
    leaves the awaited future resolved; in asyncio the resolution travels
    through one or two further iterations of done-callbacks, during which
    the other tasks keep running.  Calls on a closed or already running
    loop, which asyncio rejects, are outside the model: the handler is
    called from synchronous code and closes its loop last. *)
Module Asyncio.

Inductive tstate : Type :=
| Suspended (k kc : coro)
| Finished (o : outcome).

Record Task : Type := {
  t_name : option string;
  t_must_cancel : bool;
  t_state : tstate
}.

Record Loop : Type := {
  tasks : list Task;              (* every task created, by task id *)
  stopping : bool;
  closed : bool;
  exception_handler : option string;
  signal_handlers : list signal;
  asyncgens : nat                 (* asynchronous generators not finalized *)
}.

Definition new_event_loop : Loop :=
  {| tasks := []; stopping := false; closed := false;
     exception_handler := None; signal_handlers := []; asyncgens := 0 |}.

Definition with_tasks (ts : list Task) (l : Loop) : Loop :=
  {| tasks := ts; stopping := stopping l; closed := closed l;
     exception_handler := exception_handler l;
     signal_handlers := signal_handlers l; asyncgens := asyncgens l |}.

Definition with_stopping (b : bool) (l : Loop) : Loop :=
  {| tasks := tasks l; stopping := b; closed := closed l;
     exception_handler := exception_handler l;
     signal_handlers := signal_handlers l; asyncgens := asyncgens l |}.

(** [loop.create_task(c)]: the coroutine has not started; a cancellation
    before its first step ends it at once. *)
Definition fresh_task (c : coro) : Task :=
  {| t_name := None; t_must_cancel := false; t_state := Suspended c cancelled |}.

Definition create_task (c : coro) (l : Loop) : nat * Loop :=
  (List.length (tasks l), with_tasks (tasks l ++ [fresh_task c]) l).

Fixpoint update {A} (n : nat) (f : A -> A) (l : list A) : list A :=
  match l, n with
  | [], _ => []
  | x :: r, 0 => f x :: r
  | x :: r, S n' => x :: update n' f r
  end.

(** [task.set_name(name)] *)
Definition set_name (tid : nat) (name : string) (l : Loop) : Loop :=
  with_tasks
    (update tid (fun t => {| t_name := Some name;
                             t_must_cancel := t_must_cancel t;
                             t_state := t_state t |}) (tasks l)) l.

Definition done (t : Task) : bool :=
  match t_state t with
  | Finished _ => true
  | Suspended _ _ => false
  end.

(** [task.cancel()]: no effect on a task that is done. *)
Definition cancel_task (t : Task) : Task :=
  if done t then t
  else {| t_name := t_name t; t_must_cancel := true; t_state := t_state t |}.

Definition cancel (tid : nat) (l : Loop) : Loop :=
  with_tasks (update tid cancel_task (tasks l)) l.

(** [asyncio.all_tasks(loop)]: the tasks that are not done. *)
Fixpoint pending_from (i : nat) (ts : list Task) : list nat :=
  match ts with
  | [] => []
  | t :: r => if done t then pending_from (S i) r else i :: pending_from (S i) r
  end.

Definition all_tasks (l : Loop) : list nat := pending_from 0 (tasks l).

Definition run_coro (c : coro) : tstate :=
  match c with
  | Ret o => Finished o
  | Await k kc => Suspended k kc
  end.

(** One step of a task: resume the coroutine, or throw the pending
    cancellation into it, and run it to its next suspension or its end. *)
Definition step_task (t : Task) : Task :=
  match t_state t with
  | Finished _ => t
  | Suspended k kc =>
      {| t_name := t_name t; t_must_cancel := false;
         t_state := run_coro (if t_must_cancel t then kc else k) |}
  end.

Definition exits (o : outcome) : option exn :=
  match o with
  | Raised e => if is_exit e then Some e else None
  | Returned => None
  end.

(** One iteration over the tasks from task id [i] on.  A task that ends
    in [SystemExit] or [KeyboardInterrupt] keeps the exception and raises
    it out of the iteration; the tasks after it are not resumed. *)
Fixpoint iterate (i : nat) (ts : list Task) : list Task * list event * option exn :=
  match ts with
  | [] => ([], [], None)
  | t :: r =>
      match t_state t with
      | Finished _ =>
          let '(r', evs, x) := iterate (S i) r in (t :: r', evs, x)
      | Suspended _ _ =>
          let t' := step_task t in
          match t_state t' with
          | Suspended _ _ =>
              let '(r', evs, x) := iterate (S i) r in (t' :: r', evs, x)
          | Finished o =>
              match exits o with
              | Some e => (t' :: r, [TaskFinished i o], Some e)
              | None =>
                  let '(r', evs, x) := iterate (S i) r in
                  (t' :: r', TaskFinished i o :: evs, x)
              end
          end
      end
  end.

(** [loop._run_once()] *)
Definition run_once (l : Loop) : Loop * list event * option exn :=
  let '(ts, evs, x) := iterate 0 (tasks l) in (with_tasks ts l, evs, x).

(** The future returned by [asyncio.gather] over the tasks [ts], with [return_exceptions=re]. *)
Inductive gstatus : Type :=
| GPending
| GResult (os : list outcome)
| GError (e : exn).

(** Without [return_exceptions] the first child that fails resolves the
    future with its exception while the other children may still run;
    with it the future waits for every child and keeps the exceptions as
    results. *)
Fixpoint gather_status (re : bool) (ts : list nat) (tk : list Task) : gstatus :=
  match ts with
  | [] => GResult []
  | t :: ts' =>
      match option_map t_state (nth_error tk t) with
      | Some (Finished (Raised e)) =>
          if re then
            match gather_status re ts' tk with
            | GResult os => GResult (Raised e :: os)
            | s => s
            end
          else GError e
      | Some (Finished Returned) =>
          match gather_status re ts' tk with
          | GResult os => GResult (Returned :: os)
          | s => s
          end
      | _ =>
          match gather_status re ts' tk with
          | GError e => GError e
          | _ => GPending
          end
      end
  end.

Definition task_height (t : Task) : nat :=
  match t_state t with
  | Finished _ => 0
  | Suspended k kc => S (Nat.max (depth k) (depth kc))
  end.

(** The number of iterations after which every task is done. *)
Definition loop_height (l : Loop) : nat := list_max (map task_height (tasks l)).

Definition task_no_exit (t : Task) : bool :=
  match t_state t with
  | Finished _ => true
  | Suspended k kc => no_exit k && no_exit kc
  end.

Definition loop_no_exit (l : Loop) : bool := forallb task_no_exit (tasks l).

End Asyncio.

(** ** The NBBO aggregator *)
Module NBBO.

(** Modelled from the spec: PerSourceQuote of the aggregator
    (cryptofeed/nbbo.py is not part of the sources).  Prices, sizes and
    the timestamp are exact rationals. *)
Record PerSourceQuote : Type := {
  symbol : string;
  source : string;
  bid : Q;
  bid_size : Q;
  ask : Q;
  ask_size : Q;
  timestamp : Q
}.

Record Side : Type := { price : Q; size : Q; from : string }.

(** Modelled from the spec: AggregateQuote, the best bid and the best ask
    of a symbol with their sizes and sources. *)
Record AggregateQuote : Type := {
  agg_symbol : string;
  best_bid : Side;
  best_ask : Side
}.

(** Modelled from the spec: the aggregator object, bound to a callback and
    to symbols.  [quotes] holds one entry per (symbol, source) pair in the
    order in which the pairs were first seen (the registration order);
    [last] is the last aggregate emitted per symbol and [emitted] the
    calls of the callback, oldest first. *)
Record t : Type := {
  callback : string;
  symbols : list string;
  quotes : list PerSourceQuote;
  last : list AggregateQuote;
  emitted : list AggregateQuote
}.

Definition new (cb : string) (syms : list string) : t :=
  {| callback := cb; symbols := syms; quotes := []; last := []; emitted := [] |}.

Definition same_pair (a b : PerSourceQuote) : bool :=
  String.eqb (symbol a) (symbol b) && String.eqb (source a) (source b).

(** Modelled from the spec: a later update of a (symbol, source) pair
    replaces the entry in place; a new pair is entered last. *)
Fixpoint replace (q : PerSourceQuote) (l : list PerSourceQuote) : list PerSourceQuote :=
  match l with
  | [] => [q]
  | x :: r => if same_pair q x then q :: r else x :: replace q r
  end.

Definition entries (s : string) (l : list PerSourceQuote) : list PerSourceQuote :=
  filter (fun q => String.eqb (symbol q) s) l.

(** Modelled from the spec: the candidate [c] takes the aggregate bid from
    [r] with a higher bid price, or the same price and a larger size. *)
Definition better_bid (c r : PerSourceQuote) : bool :=
  match (bid c ?= bid r)%Q with
  | Gt => true
  | Eq => match (bid_size c ?= bid_size r)%Q with Gt => true | _ => false end
  | Lt => false
  end.

(** Modelled from the spec: the candidate takes the aggregate ask with a
    lower ask price, or the same price and a smaller size. *)
Definition better_ask (c r : PerSourceQuote) : bool :=
  match (ask c ?= ask r)%Q with
  | Lt => true
  | Eq => match (ask_size c ?= ask_size r)%Q with Lt => true | _ => false end
  | Gt => false
  end.

(** One pass in registration order; on a full tie the earlier entry
    stays. *)
Definition pick (better : PerSourceQuote -> PerSourceQuote -> bool)
           (l : list PerSourceQuote) : option PerSourceQuote :=
  match l with
  | [] => None
  | x :: r => Some (fold_left (fun best c => if better c best then c else best) r x)
  end.

Definition bid_side (q : PerSourceQuote) : Side :=
  {| price := bid q; size := bid_size q; from := source q |}.

Definition ask_side (q : PerSourceQuote) : Side :=
  {| price := ask q; size := ask_size q; from := source q |}.

(** Modelled from the spec: the recompute rule of the aggregator, over
    all current entries of the symbol. *)
Definition recompute (s : string) (l : list PerSourceQuote) : option AggregateQuote :=
  match pick better_bid (entries s l), pick better_ask (entries s l) with
  | Some b, Some a =>
      Some {| agg_symbol := s; best_bid := bid_side b; best_ask := ask_side a |}
  | _, _ => None
  end.

Definition same_side (a b : Side) : bool :=
  Qeq_bool (price a) (price b) && Qeq_bool (size a) (size b)
  && String.eqb (from a) (from b).

Definition same_aggregate (a b : AggregateQuote) : bool :=
  String.eqb (agg_symbol a) (agg_symbol b)
  && same_side (best_bid a) (best_bid b) && same_side (best_ask a) (best_ask b).

Definition last_emitted (s : string) (st : t) : option AggregateQuote :=
  find (fun a => String.eqb (agg_symbol a) s) (last st).

Definition set_last (a : AggregateQuote) (l : list AggregateQuote) : list AggregateQuote :=
  a :: filter (fun x => negb (String.eqb (agg_symbol x) (agg_symbol a))) l.

(** Modelled from the spec: the ingestion entrypoint of the aggregator.
    The quote of the pair is replaced, the aggregate of the symbol is
    recomputed, and the callback fires only when the aggregate differs
    from the one last emitted for that symbol. *)
Definition ingest (s src : string) (bid_price bid_sz ask_price ask_sz ts : Q) (st : t) : t :=
  let q := {| symbol := s; source := src; bid := bid_price; bid_size := bid_sz;
              ask := ask_price; ask_size := ask_sz; timestamp := ts |} in
  let qs := replace q (quotes st) in
  match recompute s qs with
  | None =>
      {| callback := callback st; symbols := symbols st; quotes := qs;
         last := last st; emitted := emitted st |}
  | Some a =>
      let unchanged :=
        match last_emitted s st with
        | Some a0 => same_aggregate a a0
        | None => false
        end in
      if unchanged then
        {| callback := callback st; symbols := symbols st; quotes := qs;
           last := last st; emitted := emitted st |}
      else
        {| callback := callback st; symbols := symbols st; quotes := qs;
           last := set_last a (last st); emitted := emitted st ++ [a] |}
  end.

End NBBO.

(** ** Feeds and the world *)

(** Modelled from the spec: the Feed capability (cryptofeed/feed.py is not
    part of the sources): an identifier, the keyword arguments it was built
    with, the connection handlers that [start(loop)] schedules on the loop,
    and the coroutine that [shutdown()] returns, which may fail. *)
Record Feed : Type := {
  feed_id : string;
  feed_kwargs : kwargs;
  feed_conn : list coro;
  feed_shutdown : coro
}.

(** Modelled from the spec: a feed class, as the registry holds them
    (cryptofeed/exchanges is not part of the sources): given keyword
    arguments it constructs a Feed. *)
Record FeedClass : Type := {
  cls_id : string;
  cls_conn : kwargs -> list coro;
  cls_shutdown : kwargs -> coro
}.

(** Calling the class with the keyword arguments [kw]. *)
Definition new_feed (cls : FeedClass) (kw : kwargs) : Feed :=
  {| feed_id := cls_id cls; feed_kwargs := kw;
     feed_conn := cls_conn cls kw; feed_shutdown := cls_shutdown cls kw |}.

(** What the module finds around it: the platform, the names it imports
    from modules that are not part of the sources, and how the outside ends
    a [run_forever] that nothing inside stops: after [drive_rounds]
    iterations either [loop.stop()] is called ([drive_end = None]) or a
    callback raises ([SystemExit] from the signal handler, or any other
    fault that escapes the loop). *)
Record Env : Type := {
  win32 : bool;                 (* sys.platform.startswith('win') *)
  have_SIGHUP : bool;           (* from signal import SIGHUP *)
  have_set_name : bool;         (* Task.set_name, Python 3.8+ *)
  have_uvloop : bool;           (* import uvloop *)
  L2_BOOK : string;
  _EXCHANGES : list (string * FeedClass);
  drive_rounds : nat;
  drive_end : option exn
}.

(** The attributes of a [FeedHandler] object.  [retries] is set by [stop]
    only. *)
Record FeedHandler : Type := {
  feeds : list Feed;
  config : Config;
  retries : option Z
}.

Record World : Type := {
  env : Env;
  self : FeedHandler;
  loop : Asyncio.Loop;
  heap : list NBBO.t;
  trace : list event
}.

Definition with_self (h : FeedHandler) (w : World) : World :=
  {| env := env w; self := h; loop := loop w; heap := heap w; trace := trace w |}.

Definition with_loop (l : Asyncio.Loop) (w : World) : World :=
  {| env := env w; self := self w; loop := l; heap := heap w; trace := trace w |}.

Definition with_heap (h : list NBBO.t) (w : World) : World :=
  {| env := env w; self := self w; loop := loop w; heap := h; trace := trace w |}.

Definition record (evs : list event) (w : World) : World :=
  {| env := env w; self := self w; loop := loop w; heap := heap w;
     trace := trace w ++ evs |}.

(** ** The monad of the methods *)

(** [Hang]: the call never returns. *)
Inductive Res (A : Type) : Type :=
| Ok (a : A)
| Exc (e : exn)
| Hang.
Arguments Ok {A} a.
Arguments Exc {A} e.
Arguments Hang {A}.

Definition M (A : Type) : Type := World -> Res A * World.

Definition ret {A} (a : A) : M A := fun w => (Ok a, w).

Definition bind {A B} (m : M A) (f : A -> M B) : M B :=
  fun w =>
    match m w with
    | (Ok a, w') => f a w'
    | (Exc e, w') => (Exc e, w')
    | (Hang, w') => (Hang, w')
    end.

Definition raise {A} (e : exn) : M A := fun w => (Exc e, w).

Notation "x <- m ;; k" := (bind m (fun x => k))
  (at level 61, m at next level, right associativity).
Notation "m ;; k" := (bind m (fun _ => k))
  (at level 61, right associativity).

(** [try: m  except ...: h], where [h e] is the clause that matches [e]. *)
Definition try_except {A} (m : M A) (h : exn -> option (M A)) : M A :=
  fun w =>
    match m w with
    | (Exc e, w') =>
        match h e with
        | Some k => k w'
        | None => (Exc e, w')
        end
    | r => r
    end.

(** [try: m  finally: fin]: [fin] runs whether [m] returned or raised; an
    exception of [fin] replaces the outcome of [m]. *)
Definition try_finally {A} (m : M A) (fin : M unit) : M A :=
  fun w =>
    match m w with
    | (Hang, w') => (Hang, w')
    | (r, w') =>
        match fin w' with
        | (Ok _, w'') => (r, w'')
        | (Exc e, w'') => (Exc e, w'')
        | (Hang, w'') => (Hang, w'')
        end
    end.

Fixpoint for_each {A} (l : list A) (body : A -> M unit) : M unit :=
  match l with
  | [] => ret tt
  | x :: r => body x ;; for_each r body
  end.

Definition emit (e : event) : M unit := fun w => (Ok tt, record [e] w).

Definition LOG (lv : level) (msg : string) : M unit := emit (Log lv msg).

(** Marks the entry and the exit of a method in the trace. *)
Definition method (name : string) (body : M unit) : M unit :=
  fun w =>
    match body (record [Enter name] w) with
    | (Ok x, w') => (Ok x, record [Leave name true] w')
    | (Exc e, w') => (Exc e, record [Leave name false] w')
    | (Hang, w') => (Hang, w')
    end.

(** ** The calls into the loop *)

Definition create_task (c : coro) : M nat :=
  fun w =>
    let '(tid, l) := Asyncio.create_task c (loop w) in
    (Ok tid, record [TaskCreated tid] (with_loop l w)).

Definition set_name (tid : nat) (name : string) : M unit :=
  fun w => (Ok tt, with_loop (Asyncio.set_name tid name (loop w)) w).

Definition cancel (tid : nat) : M unit :=
  fun w => (Ok tt, record [TaskCancel tid] (with_loop (Asyncio.cancel tid (loop w)) w)).

Definition all_tasks : M (list nat) :=
  fun w => (Ok (Asyncio.all_tasks (loop w)), w).

(** [loop.stop()] *)
Definition loop_stop : M unit :=
  fun w => (Ok tt, record [LoopStop] (with_loop (Asyncio.with_stopping true (loop w)) w)).

Definition run_once : M unit :=
  fun w =>
    let '(l, evs, x) := Asyncio.run_once (loop w) in
    match x with
    | Some e => (Exc e, record evs (with_loop l w))
    | None => (Ok tt, record evs (with_loop l w))
    end.

Fixpoint run_iterations (n : nat) : M unit :=
  match n with
  | 0 => ret tt
  | S n' => run_once ;; run_iterations n'
  end.

Definition clear_stopping : M unit :=
  fun w => (Ok tt, with_loop (Asyncio.with_stopping false (loop w)) w).

(** [loop.run_forever()]: iterations until the loop is stopped.  With
    [stop()] called beforehand that is one iteration; otherwise it is the
    outside that ends the drive.  The stop request is cleared on the way
    out, whatever the way. *)
Definition run_forever : M unit :=
  emit RunForever ;;
  try_finally
    (fun w =>
       if Asyncio.stopping (loop w) then run_once w
       else
         (run_iterations (drive_rounds (env w)) ;;
          match drive_end (env w) with
          | None => ret tt
          | Some e => raise e
          end) w)
    clear_stopping.

(** The iterations of [loop.run_until_complete(asyncio.gather(...))]. *)
Fixpoint drive_until (fuel : nat) (re : bool) (ts : list nat) (w : World)
  : Res (list outcome) * World :=
  match Asyncio.gather_status re ts (Asyncio.tasks (loop w)) with
  | Asyncio.GResult os => (Ok os, w)
  | Asyncio.GError e => (Exc e, w)
  | Asyncio.GPending =>
      match fuel with
      | 0 => (Hang, w)
      | S fuel' =>
          match run_once w with
          | (Ok _, w') => drive_until fuel' re ts w'
          | (Exc e, w') => (Exc e, w')
          | (Hang, w') => (Hang, w')
          end
      end
  end.

(** [loop.run_until_complete(asyncio.gather(...))] over the tasks [ts].
    After [loop_height] iterations no task is left to run, so that the
    drive needs no more of them. *)
Definition run_until_complete_gather (re : bool) (ts : list nat) : M (list outcome) :=
  fun w => drive_until (Asyncio.loop_height (loop w)) re ts w.

(** [loop.run_until_complete(loop.shutdown_asyncgens())] *)
Definition shutdown_asyncgens : M unit :=
  fun w =>
    let l := loop w in
    (Ok tt,
     record [AsyncgensShutdown]
       (with_loop
          {| Asyncio.tasks := Asyncio.tasks l; Asyncio.stopping := Asyncio.stopping l;
             Asyncio.closed := Asyncio.closed l;
             Asyncio.exception_handler := Asyncio.exception_handler l;
             Asyncio.signal_handlers := Asyncio.signal_handlers l;
             Asyncio.asyncgens := 0 |} w)).

(** [loop.close()] *)
Definition loop_close : M unit :=
  fun w =>
    let l := loop w in
    (Ok tt,
     record [LoopClose]
       (with_loop
          {| Asyncio.tasks := Asyncio.tasks l; Asyncio.stopping := Asyncio.stopping l;
             Asyncio.closed := true;
             Asyncio.exception_handler := Asyncio.exception_handler l;
             Asyncio.signal_handlers := Asyncio.signal_handlers l;
             Asyncio.asyncgens := Asyncio.asyncgens l |} w)).

(** [loop.set_exception_handler(h)] *)
Definition set_exception_handler (h : string) : M unit :=
  fun w =>
    let l := loop w in
    (Ok tt,
     record [ExceptionHandlerSet h]
       (with_loop
          {| Asyncio.tasks := Asyncio.tasks l; Asyncio.stopping := Asyncio.stopping l;
             Asyncio.closed := Asyncio.closed l;
             Asyncio.exception_handler := Some h;
             Asyncio.signal_handlers := Asyncio.signal_handlers l;
             Asyncio.asyncgens := Asyncio.asyncgens l |} w)).

(** [loop.add_signal_handler(sig, handle_stop_signals)] *)
Definition add_signal_handler (s : signal) : M unit :=
  fun w =>
    let l := loop w in
    (Ok tt,
     record [SignalSet true s]
       (with_loop
          {| Asyncio.tasks := Asyncio.tasks l; Asyncio.stopping := Asyncio.stopping l;
             Asyncio.closed := Asyncio.closed l;
             Asyncio.exception_handler := Asyncio.exception_handler l;
             Asyncio.signal_handlers := Asyncio.signal_handlers l ++ [s];
             Asyncio.asyncgens := Asyncio.asyncgens l |} w)).

(** [signal.signal(sig, handle_stop_signals)] *)
Definition signal_signal (s : signal) : M unit := emit (SignalSet false s).

(** Modelled from the spec: [feed.start(loop)] begins the connection
    handlers of the Feed on the loop (cryptofeed/feed.py is not part of the
    sources). *)
Definition feed_start (feed : Feed) : M unit :=
  emit (FeedStart (feed_id feed)) ;;
  for_each (feed_conn feed) (fun c => create_task c ;; ret tt).

(** ** feedhandler.py *)

Definition SIGNALS (e : Env) : list signal :=
  if have_SIGHUP e then [SIGABRT; SIGINT; SIGTERM; SIGHUP]
  else [SIGABRT; SIGINT; SIGTERM].

Definition setup_signal_handlers : M unit :=
  fun w =>
    if win32 (env w) then for_each (SIGNALS (env w)) signal_signal w
    else for_each (SIGNALS (env w)) add_signal_handler w.

(** [FeedHandler(config)]: the world in which the object has just been
    built, with a loop [l] for the thread. *)
Definition FeedHandler_init (e : Env) (l : Asyncio.Loop) (cfg : Config) : World :=
  {| env := e;
     self := {| feeds := []; config := cfg; retries := None |};
     loop := l;
     heap := [];
     trace :=
       match log_msg cfg with Some m => [Log INFO m] | None => [] end
       ++ (if uvloop cfg then
             if have_uvloop e then [Log INFO "FH: uvloop initalized"]
             else [Log INFO "FH: uvloop not initialized"]
           else []) |}.

(** The [feed] argument of [add_feed]: a [str], or any other object. *)
Inductive feed_spec : Type :=
| ByName (name : string)
| Instance (feed : Feed).

Fixpoint lookup (name : string) (d : list (string * FeedClass)) : option FeedClass :=
  match d with
  | [] => None
  | (k, cls) :: r => if String.eqb name k then Some cls else lookup name r
  end.

Definition append_feed (f : Feed) : M unit :=
  fun w =>
    (Ok tt,
     with_self {| feeds := feeds (self w) ++ [f]; config := config (self w);
                  retries := retries (self w) |} w).

Definition add_feed (feed : feed_spec) (kw : kwargs) : M unit :=
  fun w =>
    match feed with
    | ByName name =>
        match lookup name (_EXCHANGES (env w)) with
        | Some cls =>
            append_feed (new_feed cls (("config", PConfig (config (self w))) :: kw)) w
        | None => raise (ValueError "Invalid feed specified") w
        end
    | Instance f => append_feed f w
    end.

(** A call of [add_feed] with the positional arguments [args] after
    [self]: the method has the one positional parameter [feed]. *)
Definition add_feed_call (args : list feed_spec) (kw : kwargs) : M unit :=
  match args with
  | [feed] => add_feed feed kw
  | [] => raise (TypeError "add_feed() missing 1 required positional argument: 'feed'")
  | _ =>
      raise (TypeError ("add_feed() takes 2 positional arguments but "
                          ^^ str_of_nat (S (List.length args)) ^^ " were given"))
  end.

(** [self.add_feed(feed, *kwargs)] unpacks the mapping into its keys, which
    become positional arguments.  The [loop] argument is the loop of the
    world in either case. *)
Definition add_feed_running (feed : feed_spec) (kw : kwargs) : M unit :=
  add_feed_call (feed :: map (fun kv => ByName (fst kv)) kw) [] ;;
  fun w =>
    match rev (feeds (self w)) with
    | f :: _ => feed_start f w
    | [] => raise (IndexError "list index out of range") w
    end.

Definition NBBO_new (cb : string) (syms : list string) : M nat :=
  fun w => (Ok (List.length (heap w)), with_heap (heap w ++ [NBBO.new cb syms]) w).

Definition nbbo_kwargs (l2_book : string) (syms : list string) (cb : nat) : kwargs :=
  [("channels", PList [PStr l2_book]);
   ("symbols", PList (map PStr syms));
   ("callbacks", PDict [(l2_book, PRef cb)])].

Definition add_nbbo (fds : list FeedClass) (syms : list string) (cb_fn : string) : M unit :=
  cb <- NBBO_new cb_fn syms ;;
  for_each fds
    (fun feed => fun w =>
       add_feed (Instance (new_feed feed (nbbo_kwargs (L2_BOOK (env w)) syms cb))) [] w).

(** [self.retries = z] *)
Definition set_retries (z : Z) : M unit :=
  fun w =>
    (Ok tt,
     record [SetRetries z]
       (with_self {| feeds := feeds (self w); config := config (self w);
                     retries := Some z |} w)).

(** The loop of [stop] that fills [shutdown_tasks].  Where [Task.set_name]
    is missing the [AttributeError] is passed over. *)
Fixpoint create_shutdown_tasks (fs : list Feed) : M (list nat) :=
  match fs with
  | [] => ret []
  | feed :: r =>
      task <- create_task (feed_shutdown feed) ;;
      (fun w =>
         if have_set_name (env w)
         then set_name task ("shutdown_feed_" ^^ feed_id feed) w
         else ret tt w) ;;
      rest <- create_shutdown_tasks r ;;
      ret (task :: rest)
  end.

(** [stop(loop)].  The [loop] argument is the loop of the world, as in
    [close]: [run] passes the loop it got from [get_event_loop], which is
    also what the methods fall back to. *)
Definition stop : M unit :=
  method "stop"
    (LOG INFO "FH: flag retries=0 to stop the tasks running the connection handlers" ;;
     set_retries 0 ;;
     LOG INFO "FH: create the tasks to properly shutdown the backends (to flush the local cache)" ;;
     shutdown_tasks <- (fun w => create_shutdown_tasks (feeds (self w)) w) ;;
     LOG INFO ("FH: wait " ^^ str_of_nat (List.length shutdown_tasks)
                 ^^ " backend tasks until termination") ;;
     run_until_complete_gather false shutdown_tasks ;;
     ret tt).

(** [close(loop)] *)
Definition close : M unit :=
  method "close"
    (LOG INFO "FH: stop the AsyncIO loop" ;;
     loop_stop ;;
     LOG INFO "FH: run the AsyncIO event loop one last time" ;;
     run_forever ;;
     pending <- all_tasks ;;
     LOG INFO ("FH: cancel the " ^^ str_of_nat (List.length pending) ^^ " pending tasks") ;;
     for_each pending cancel ;;
     LOG INFO "FH: run the pending tasks until complete" ;;
     run_until_complete_gather true pending ;;
     LOG INFO "FH: shutdown asynchronous generators" ;;
     shutdown_asyncgens ;;
     LOG INFO "FH: close the AsyncIO loop" ;;
     loop_close).

Definition no_feed_txt (e : Env) : string :=
  "FH: No feed specified. Please specify at least one feed among "
    ^^ repr_str_list (map fst (_EXCHANGES e)).

(** [run(start_loop, install_signal_handlers, exception_handler)]; the
    exception handler is known by its name. *)
Definition run (start_loop install_signal_handlers : bool)
           (exception_handler : option string) : M unit :=
  fun w =>
    if List.length (feeds (self w)) =? 0 then
      (LOG CRITICAL (no_feed_txt (env w)) ;;
       raise (ValueError (no_feed_txt (env w)))) w
    else
      ((if install_signal_handlers then setup_signal_handlers else ret tt) ;;
       (fun w => for_each (feeds (self w)) feed_start w) ;;
       if negb start_loop then ret tt
       else
         try_finally
           (try_except
              (match exception_handler with
               | Some h => set_exception_handler h
               | None => ret tt
               end ;;
               run_forever)
              (fun e =>
                 match e with
                 | SystemExit =>
                     Some (LOG INFO "FH: System Exit received - shutting down")
                 | _ =>
                     if is_Exception e
                     then Some (LOG EXCEPTION ("FH: Unhandled " ^^ repr_exn e
                                                 ^^ " - shutting down"))
                     else None
                 end))
           (stop ;; close) ;;
         LOG INFO "FH: leaving run()") w.

(** ** Sample worlds *)
Module Sample.

Definition cfg : Config :=
  {| log_filename := "feedhandler.log"; log_level := "WARNING";
     log_msg := None; uvloop := false |}.

(** A feed whose shutdown fails at its first step. *)
Definition Failing : FeedClass :=
  {| cls_id := "FAILING";
     cls_conn := fun _ => [after 20 Returned];
     cls_shutdown := fun _ => Ret (Raised (Fault "flush failed")) |}.

(** A feed whose shutdown needs ten resumptions. *)
Definition Slow : FeedClass :=
  {| cls_id := "SLOW";
     cls_conn := fun _ => [after 20 Returned];
     cls_shutdown := fun _ => after 10 Returned |}.

(** A feed whose shutdown needs two resumptions. *)
Definition Quick : FeedClass :=
  {| cls_id := "QUICK";
     cls_conn := fun _ => [after 20 Returned];
     cls_shutdown := fun _ => after 2 Returned |}.

(** A POSIX host with Python 3.8, on which a termination signal arrives
    after three iterations of the loop. *)
Definition posix : Env :=
  {| win32 := false; have_SIGHUP := true; have_set_name := true;
     have_uvloop := false; L2_BOOK := "l2_book";
     _EXCHANGES := [("FAILING", Failing); ("SLOW", Slow); ("QUICK", Quick)];
     drive_rounds := 3; drive_end := Some SystemExit |}.

Definition empty : World := FeedHandler_init posix Asyncio.new_event_loop cfg.

Definition register (names : list string) (w : World) : World :=
  snd (for_each names (fun n => add_feed (ByName n) []) w).

(** One feed that fails to shut down, one that is slow to. *)
Definition failing_and_slow : World := register ["FAILING"; "SLOW"] empty.

Definition quick_and_slow : World := register ["QUICK"; "SLOW"] empty.

(** [quick_and_slow] with its feeds started. *)
Definition started : World := snd (run false false None quick_and_slow).

End Sample.

(** * The notions of the statements

    The worlds between the steps of [stop], [close] and [run], the events
    they add to the trace, and the relations between worlds that the
    properties are stated with. *)

(** The report of a task that finished. *)
Definition is_finish (e : event) : Prop := exists n o, e = TaskFinished n o.

(** The task [n] of the loop is done, with the outcome [o]. *)
Definition finished_at (w : World) (n : nat) (o : outcome) : Prop :=
  exists t, nth_error (Asyncio.tasks (loop w)) n = Some t
            /\ Asyncio.t_state t = Asyncio.Finished o.

(** The task [n] of the loop is not done. *)
Definition pending_at (w : World) (n : nat) : Prop :=
  exists t, nth_error (Asyncio.tasks (loop w)) n = Some t /\ Asyncio.done t = false.

(** What driving the loop from [w] to [w'] may do: tasks progress, the
    tasks that finish are reported in the trace by [evs], in order, and
    nothing else changes. *)
Record drives (w w' : World) (evs : list event) : Prop := {
  dr_env : env w' = env w;
  dr_self : self w' = self w;
  dr_heap : heap w' = heap w;
  dr_loop : Asyncio.with_tasks (Asyncio.tasks (loop w)) (loop w') = loop w;
  dr_trace : trace w' = trace w ++ evs;
  dr_events : Forall is_finish evs;
  dr_steps : Forall2 (fun t t' => exists n, t' = Nat.iter n Asyncio.step_task t)
               (Asyncio.tasks (loop w)) (Asyncio.tasks (loop w'));
  dr_length : List.length (Asyncio.tasks (loop w')) = List.length (Asyncio.tasks (loop w));
  dr_keeps : forall n o, finished_at w n o -> finished_at w' n o;
  dr_reports : forall n o, pending_at w n -> finished_at w' n o -> In (TaskFinished n o) evs
}.

(** The ids [ts] are ids of tasks of the loop. *)
Definition valid (ts : list nat) (w : World) : Prop :=
  Forall (fun t => t < List.length (Asyncio.tasks (loop w))) ts.

(** A task that, resumed without a cancellation, comes to the outcome
    [o]. *)
Definition runs_to (o : outcome) (t : Asyncio.Task) : Prop :=
  match Asyncio.t_state t with
  | Asyncio.Finished o' => o' = o
  | Asyncio.Suspended k _ => Asyncio.t_must_cancel t = false /\ final k = o
  end.

(** The tasks [ts] run to the outcomes [os], one each. *)
Definition expects (tk : list Asyncio.Task) (ts : list nat) (os : list outcome) : Prop :=
  Forall2 (fun t o => exists task, nth_error tk t = Some task /\ runs_to o task) ts os.

(** The task that [stop] creates for a feed. *)
Definition shutdown_task (e : Env) (f : Feed) : Asyncio.Task :=
  {| Asyncio.t_name :=
       if have_set_name e then Some ("shutdown_feed_" ^^ feed_id f) else None;
     Asyncio.t_must_cancel := false;
     Asyncio.t_state := Asyncio.Suspended (feed_shutdown f) cancelled |}.

(** The events of [stop] up to the wait. *)
Definition stop_prelude (w : World) : list event :=
  [Enter "stop";
   Log INFO "FH: flag retries=0 to stop the tasks running the connection handlers";
   SetRetries 0;
   Log INFO "FH: create the tasks to properly shutdown the backends (to flush the local cache)"]
  ++ map TaskCreated
       (seq (List.length (Asyncio.tasks (loop w))) (List.length (feeds (self w))))
  ++ [Log INFO ("FH: wait " ^^ str_of_nat (List.length (feeds (self w)))
                  ^^ " backend tasks until termination")].

(** The world in which [stop] starts to wait. *)
Definition stop_scheduled (w : World) : World :=
  {| env := env w;
     self := {| feeds := feeds (self w); config := config (self w); retries := Some 0%Z |};
     loop := Asyncio.with_tasks
               (Asyncio.tasks (loop w) ++ map (shutdown_task (env w)) (feeds (self w)))
               (loop w);
     heap := heap w;
     trace := trace w ++ stop_prelude w |}.

(** The ids of the tasks that [stop] creates. *)
Definition shutdown_ids (w : World) : list nat :=
  seq (List.length (Asyncio.tasks (loop w))) (List.length (feeds (self w))).

(** The sources of [SystemExit] and [KeyboardInterrupt] during [stop]: the
    tasks already on the loop and the shutdown coroutines. *)
Definition stop_no_exit (w : World) : bool :=
  Asyncio.loop_no_exit (loop w) && forallb (fun f => no_exit (feed_shutdown f)) (feeds (self w)).

(** [for task in pending: task.cancel()] *)
Definition cancel_all (ts : list nat) (l : Asyncio.Loop) : Asyncio.Loop :=
  fold_left (fun lp t => Asyncio.cancel t lp) ts l.

(** The world in which [close] runs the loop one last time. *)
Definition close_entered (w : World) : World :=
  {| env := env w; self := self w;
     loop := Asyncio.with_stopping true (loop w);
     heap := heap w;
     trace := trace w
              ++ [Enter "close"; Log INFO "FH: stop the AsyncIO loop"; LoopStop;
                  Log INFO "FH: run the AsyncIO event loop one last time"; RunForever] |}.

(** The stop request cleared, on the way out of [run_forever]. *)
Definition cleared (w : World) : World :=
  with_loop (Asyncio.with_stopping false (loop w)) w.

(** The events from the census of the pending tasks to the wait. *)
Definition cancel_events (pending : list nat) : list event :=
  [Log INFO ("FH: cancel the " ^^ str_of_nat (List.length pending) ^^ " pending tasks")]
  ++ map TaskCancel pending
  ++ [Log INFO "FH: run the pending tasks until complete"].

(** The world in which [close] starts to wait for the cancelled tasks. *)
Definition close_cancelled (w : World) : World :=
  {| env := env w; self := self w;
     loop := cancel_all (Asyncio.all_tasks (loop w)) (loop w);
     heap := heap w;
     trace := trace w ++ cancel_events (Asyncio.all_tasks (loop w)) |}.

(** The end of a [close] that returns. *)
Definition finalize_events : list event :=
  [Log INFO "FH: shutdown asynchronous generators"; AsyncgensShutdown;
   Log INFO "FH: close the AsyncIO loop"; LoopClose; Leave "close" true].

(** The world that a [close] that returns leaves, from the world [w] at
    the end of its wait. *)
Definition close_finished (w : World) : World :=
  {| env := env w; self := self w;
     loop := {| Asyncio.tasks := Asyncio.tasks (loop w);
                Asyncio.stopping := Asyncio.stopping (loop w);
                Asyncio.closed := true;
                Asyncio.exception_handler := Asyncio.exception_handler (loop w);
                Asyncio.signal_handlers := Asyncio.signal_handlers (loop w);
                Asyncio.asyncgens := 0 |};
     heap := heap w;
     trace := trace w ++ finalize_events |}.

(** The entries and exits of the methods, in their order. *)
Definition is_call (e : event) : bool :=
  match e with
  | Enter _ | Leave _ _ => true
  | _ => false
  end.

(** The entries and exits in a trace. *)
Definition calls (evs : list event) : list event := filter is_call evs.

(** The events of [close] up to the last run of the loop. *)
Definition opening_events : list event :=
  [Enter "close"; Log INFO "FH: stop the AsyncIO loop"; LoopStop;
   Log INFO "FH: run the AsyncIO event loop one last time"; RunForever].

(** Every event that [m] adds to the trace satisfies [P]. *)
Definition emits {A} (P : event -> Prop) (m : M A) : Prop :=
  forall w, exists new, trace (snd (m w)) = trace w ++ new /\ Forall P new.

(** An event of the body of a method short of the finalization of the
    loop. *)
Definition plain (e : event) : Prop :=
  is_call e = false /\ e <> AsyncgensShutdown /\ e <> LoopClose.

(** An event that is not the entry or the exit of a method. *)
Definition quiet (e : event) : Prop := is_call e = false.

(** The loop with the signals [sigs] handled. *)
Definition with_signal_handlers (sigs : list signal) (l : Asyncio.Loop) : Asyncio.Loop :=
  {| Asyncio.tasks := Asyncio.tasks l; Asyncio.stopping := Asyncio.stopping l;
     Asyncio.closed := Asyncio.closed l;
     Asyncio.exception_handler := Asyncio.exception_handler l;
     Asyncio.signal_handlers := sigs; Asyncio.asyncgens := Asyncio.asyncgens l |}.

(** The tasks that the feeds schedule when they are started. *)
Definition conn_tasks (fs : list Feed) : list Asyncio.Task :=
  flat_map (fun f => map Asyncio.fresh_task (feed_conn f)) fs.

(** The events of starting the feeds [fs] on a loop that holds [n]
    tasks. *)
Fixpoint start_events (n : nat) (fs : list Feed) : list event :=
  match fs with
  | [] => []
  | f :: r =>
      FeedStart (feed_id f)
      :: map TaskCreated (seq n (List.length (feed_conn f)))
      ++ start_events (n + List.length (feed_conn f)) r
  end.

(** The events of [setup_signal_handlers]. *)
Definition signal_events (e : Env) : list event :=
  map (SignalSet (negb (win32 e))) (SIGNALS e).

(** The world that [run] leaves when it has installed the signal handlers
    (if asked to) and started the feeds. *)
Definition run_started (install_signal_handlers : bool) (w : World) : World :=
  {| env := env w; self := self w;
     loop :=
       Asyncio.with_tasks (Asyncio.tasks (loop w) ++ conn_tasks (feeds (self w)))
         (if install_signal_handlers && negb (win32 (env w))
          then with_signal_handlers
                 (Asyncio.signal_handlers (loop w) ++ SIGNALS (env w)) (loop w)
          else loop w);
     heap := heap w;
     trace := trace w
              ++ (if install_signal_handlers then signal_events (env w) else [])
              ++ start_events (List.length (Asyncio.tasks (loop w))) (feeds (self w)) |}.

(** The call returned normally. *)
Definition succeeded {A} (r : Res A) : bool :=
  match r with
  | Ok _ => true
  | _ => false
  end.

(** [opening_events] after the entry. *)
Definition opening_rest : list event :=
  [Log INFO "FH: stop the AsyncIO loop"; LoopStop;
   Log INFO "FH: run the AsyncIO event loop one last time"; RunForever].

(** The [try] statement of [run]: the drive of the loop and its
    handlers. *)
Definition drive (eh : option string) : M unit :=
  try_except
    (match eh with
     | Some h => set_exception_handler h
     | None => ret tt
     end ;;
     run_forever)
    (fun e =>
       match e with
       | SystemExit => Some (LOG INFO "FH: System Exit received - shutting down")
       | _ =>
           if is_Exception e
           then Some (LOG EXCEPTION ("FH: Unhandled " ^^ repr_exn e ^^ " - shutting down"))
           else None
       end).

(** The feeds that a trace starts, in order. *)
Definition feed_starts (evs : list event) : list string :=
  flat_map (fun e => match e with FeedStart id => [id] | _ => [] end) evs.

(** The world with the feed [f] appended to [self.feeds]. *)
Definition registered (f : Feed) (w : World) : World :=
  {| env := env w;
     self := {| feeds := feeds (self w) ++ [f]; config := config (self w);
                retries := retries (self w) |};
     loop := loop w; heap := heap w; trace := trace w |}.

(** The [TypeError] of a call of [add_feed] with [n] positional
    arguments, [self] included. *)
Definition too_many_arguments (n : nat) : exn :=
  TypeError ("add_feed() takes 2 positional arguments but " ^^ str_of_nat n
               ^^ " were given").

(** * Further notions

    For the properties of the handler beyond the single calls: what the
    methods keep of the handler object, and the worlds in which nothing
    stands in the way of an orderly shutdown. *)

(** The part of the handler object that the shutdown does not touch. *)
Definition owned (w : World) : list Feed * Config :=
  (feeds (self w), config (self w)).

(** [m] keeps the property [I] of the world. *)
Definition keeps {A} (I : World -> Prop) (m : M A) : Prop :=
  forall w, I w -> I (snd (m w)).

(** What [run] makes of the way the drive ended: [None] is a normal return
    of [run_forever]; [SystemExit] and every [Exception] are logged and
    dropped; any other exception is raised again after the shutdown. *)
Definition run_result (e : option exn) : Res unit :=
  match e with
  | None => Ok tt
  | Some SystemExit => Ok tt
  | Some e' => if is_Exception e' then Ok tt else Exc e'
  end.

Definition returns (o : outcome) : bool :=
  match o with
  | Returned => true
  | Raised _ => false
  end.

(** A feed none of whose coroutines ends in [SystemExit] or
    [KeyboardInterrupt], and whose shutdown succeeds when it is left to
    run. *)
Definition sound_feed (f : Feed) : bool :=
  forallb no_exit (feed_conn f) && no_exit (feed_shutdown f)
  && returns (final (feed_shutdown f)).

Definition sound (w : World) : bool :=
  Asyncio.loop_no_exit (loop w) && forallb sound_feed (feeds (self w)).

(** The events of the start of [run]. *)
Definition is_start (e : event) : bool :=
  match e with
  | FeedStart _ | SignalSet _ _ => true
  | _ => false
  end.

(** A world like [Sample.quick_and_slow] in which the drive is ended by
    [KeyboardInterrupt]. *)
Definition interrupted : World :=
  let w := Sample.quick_and_slow in
  {| env := {| win32 := false; have_SIGHUP := true; have_set_name := true;
               have_uvloop := false; L2_BOOK := "l2_book";
               _EXCHANGES := _EXCHANGES (env w);
               drive_rounds := 3; drive_end := Some KeyboardInterrupt |};
     self := self w; loop := loop w; heap := heap w; trace := trace w |}.


(** An event that is neither the start of a feed nor the installation of
    a signal handler. *)
Definition after_start (e : event) : Prop := is_start e = false.

(** The event of installing the exception handler of [run], if one is
    given. *)
Definition handler_events (eh : option string) : list event :=
  match eh with
  | Some h => [ExceptionHandlerSet h]
  | None => []
  end.

(** * Properties *)

(** Brings a chain of appended lists to the right-nested form, without
    unfolding the lists. *)
Ltac reassoc :=
  repeat match goal with
         | |- context [(?a ++ ?b) ++ ?c] => rewrite <- (app_assoc a b c)
         end;
  reflexivity.

(** A call into the loop that adds its events at once. *)
Ltac emits_call :=
  let w := fresh "w" in
  intros w; eexists; (split; [reflexivity |]);
  repeat constructor; try reflexivity; try discriminate.

(** ** The loop *)
Module AsyncioFacts.
Import Asyncio.

Lemma step_task_done (t : Task) : done t = true -> step_task t = t.
Proof.
  unfold done, step_task. destruct (t_state t); [discriminate | reflexivity].
Qed.

Lemma depth_run_coro (c : coro) k kc :
  run_coro c = Suspended k kc -> S (Nat.max (depth k) (depth kc)) = depth c.
Proof.
  destruct c as [o | k' kc']; simpl; intros H; [discriminate |].
  injection H as -> ->. reflexivity.
Qed.

(** A step brings a task one suspension point closer to its end. *)
Lemma step_task_height (t : Task) :
  task_height (step_task t) <= Nat.pred (task_height t).
Proof.
  unfold task_height, step_task.
  destruct (t_state t) as [k kc | o] eqn:E; simpl; [| rewrite E; lia].
  destruct (run_coro (if t_must_cancel t then kc else k)) as [k' kc' | o'] eqn:R;
    [| lia].
  apply depth_run_coro in R. destruct (t_must_cancel t); lia.
Qed.

Lemma no_exit_run_coro (c : coro) :
  no_exit c = true ->
  match run_coro c with
  | Suspended k kc => no_exit k && no_exit kc = true
  | Finished o => exits o = None
  end.
Proof.
  destruct c as [[| e] | k kc]; simpl; intros H; try reflexivity; try assumption.
  destruct (is_exit e); [discriminate | reflexivity].
Qed.

Lemma step_task_no_exit (t : Task) :
  task_no_exit t = true ->
  task_no_exit (step_task t) = true /\
  (done t = false -> forall o, t_state (step_task t) = Finished o -> exits o = None).
Proof.
  unfold task_no_exit, step_task, done.
  destruct (t_state t) as [k kc | o] eqn:E; simpl.
  - intros H. apply andb_true_iff in H as [Hk Hc].
    assert (Hn : no_exit (if t_must_cancel t then kc else k) = true)
      by (destruct (t_must_cancel t); assumption).
    apply no_exit_run_coro in Hn.
    destruct (run_coro (if t_must_cancel t then kc else k)) as [k' kc' | o'].
    + split; [assumption | intros _ o H; discriminate].
    + split; [reflexivity | intros _ o H; injection H as <-; assumption].
  - intros _. rewrite E. split; [reflexivity | discriminate].
Qed.

(** An iteration that nothing interrupts steps every task. *)
Lemma iterate_complete (ts : list Task) : forall i ts' evs,
  iterate i ts = (ts', evs, None) -> ts' = map step_task ts.
Proof.
  induction ts as [| t r IH]; intros i ts' evs H; simpl in H.
  - injection H as <- _. reflexivity.
  - destruct (t_state t) as [k kc | o] eqn:E.
    + destruct (t_state (step_task t)) as [k' kc' | o'] eqn:E'.
      * destruct (iterate (S i) r) as [[r' evs'] x] eqn:R.
        injection H as <- _ ->. simpl. f_equal. eauto.
      * destruct (exits o'); [discriminate |].
        destruct (iterate (S i) r) as [[r' evs'] x] eqn:R.
        injection H as <- _ ->. simpl. f_equal. eauto.
    + destruct (iterate (S i) r) as [[r' evs'] x] eqn:R.
      injection H as <- _ ->. simpl. f_equal; [| eauto].
      symmetry. apply step_task_done. unfold done. rewrite E. reflexivity.
Qed.

(** In any iteration a task is stepped or left as it was. *)
Lemma iterate_pointwise (ts : list Task) : forall i ts' evs x,
  iterate i ts = (ts', evs, x) ->
  Forall2 (fun t t' => t' = t \/ t' = step_task t) ts ts'.
Proof.
  induction ts as [| t r IH]; intros i ts' evs x H; simpl in H.
  - injection H as <- _ _. constructor.
  - destruct (t_state t) as [k kc | o] eqn:E.
    + destruct (t_state (step_task t)) as [k' kc' | o'] eqn:E'.
      * destruct (iterate (S i) r) as [[r' evs'] x'] eqn:R.
        injection H as <- _ _. constructor; [right; reflexivity | eauto].
      * destruct (exits o').
        -- injection H as <- _ _. constructor; [right; reflexivity |].
           clear. induction r; constructor; auto.
        -- destruct (iterate (S i) r) as [[r' evs'] x'] eqn:R.
           injection H as <- _ _. constructor; [right; reflexivity | eauto].
    + destruct (iterate (S i) r) as [[r' evs'] x'] eqn:R.
      injection H as <- _ _. constructor; [left; reflexivity | eauto].
Qed.

Lemma iterate_events (ts : list Task) : forall i ts' evs x,
  iterate i ts = (ts', evs, x) -> Forall is_finish evs.
Proof.
  induction ts as [| t r IH]; intros i ts' evs x H; simpl in H.
  - injection H as _ <- _. constructor.
  - destruct (t_state t) as [k kc | o] eqn:E.
    + destruct (t_state (step_task t)) as [k' kc' | o'] eqn:E'.
      * destruct (iterate (S i) r) as [[r' evs'] x'] eqn:R.
        injection H as _ <- _. eauto.
      * destruct (exits o').
        -- injection H as _ <- _. repeat constructor. red. eauto.
        -- destruct (iterate (S i) r) as [[r' evs'] x'] eqn:R.
           injection H as _ <- _. constructor; [red; eauto | eauto].
    + destruct (iterate (S i) r) as [[r' evs'] x'] eqn:R.
      injection H as _ <- _. eauto.
Qed.

(** Every task that an iteration finishes is reported, under its id. *)
Lemma iterate_reports (ts : list Task) : forall i ts' evs x n t t' o,
  iterate i ts = (ts', evs, x) ->
  nth_error ts n = Some t -> nth_error ts' n = Some t' ->
  done t = false -> t_state t' = Finished o ->
  In (TaskFinished (i + n) o) evs.
Proof.
  induction ts as [| t0 r IH]; intros i ts' evs x n t t' o H Hn Hn' Hd Hf.
  - destruct n; discriminate.
  - simpl in H. destruct (t_state t0) as [k kc | o0] eqn:E.
    + destruct (t_state (step_task t0)) as [k' kc' | o'] eqn:E'.
      * destruct (iterate (S i) r) as [[r' evs'] x'] eqn:R.
        injection H as <- <- _. destruct n as [| n]; simpl in *.
        -- injection Hn' as <-. congruence.
        -- replace (i + S n) with (S i + n) by lia. eauto.
      * destruct (exits o').
        -- injection H as <- <- _. destruct n as [| n]; simpl in *.
           ++ injection Hn' as <-. left. rewrite Nat.add_0_r. congruence.
           ++ exfalso. rewrite Hn in Hn'. injection Hn' as <-.
              unfold done in Hd. rewrite Hf in Hd. discriminate.
        -- destruct (iterate (S i) r) as [[r' evs'] x'] eqn:R.
           injection H as <- <- _. destruct n as [| n]; simpl in *.
           ++ injection Hn' as <-. left. rewrite Nat.add_0_r. congruence.
           ++ right. replace (i + S n) with (S i + n) by lia. eauto.
    + destruct (iterate (S i) r) as [[r' evs'] x'] eqn:R.
      injection H as <- <- _. destruct n as [| n]; simpl in *.
      * injection Hn as <-. unfold done in Hd. rewrite E in Hd. discriminate.
      * replace (i + S n) with (S i + n) by lia. eauto.
Qed.

(** Tasks that cannot end in [SystemExit] or [KeyboardInterrupt] never
    interrupt an iteration. *)
Lemma iterate_no_exit (ts : list Task) : forall i ts' evs x,
  forallb task_no_exit ts = true ->
  iterate i ts = (ts', evs, x) -> x = None.
Proof.
  induction ts as [| t r IH]; intros i ts' evs x Hall H; simpl in H.
  - injection H as _ _ <-. reflexivity.
  - simpl in Hall. apply andb_true_iff in Hall as [Ht Hr].
    destruct (t_state t) as [k kc | o] eqn:E.
    + destruct (t_state (step_task t)) as [k' kc' | o'] eqn:E'.
      * destruct (iterate (S i) r) as [[r' evs'] x'] eqn:R.
        injection H as _ _ <-. eauto.
      * apply step_task_no_exit in Ht as [_ Ht].
        rewrite (Ht ltac:(unfold done; rewrite E; reflexivity) _ E') in H.
        destruct (iterate (S i) r) as [[r' evs'] x'] eqn:R.
        injection H as _ _ <-. eauto.
    + destruct (iterate (S i) r) as [[r' evs'] x'] eqn:R.
      injection H as _ _ <-. eauto.
Qed.

End AsyncioFacts.

(** ** Driving the loop *)

Lemma Forall2_compose {A} (R S T : A -> A -> Prop) (l1 l2 l3 : list A) :
  Forall2 R l1 l2 -> Forall2 S l2 l3 ->
  (forall a b c, R a b -> S b c -> T a c) -> Forall2 T l1 l3.
Proof.
  intros H. revert l3. induction H as [| a b l1 l2 Hab _ IH]; intros l3 H3 Hc.
  - inversion H3. constructor.
  - inversion H3; subst. constructor; eauto.
Qed.

Lemma drives_refl (w : World) : drives w w [].
Proof.
  constructor; try reflexivity.
  - destruct (loop w); reflexivity.
  - symmetry. apply app_nil_r.
  - constructor.
  - induction (Asyncio.tasks (loop w)); constructor; [exists 0; reflexivity | assumption].
  - auto.
  - intros n o [t [Ht Hd]] [t' [Ht' Hf]]. exfalso.
    rewrite Ht in Ht'. injection Ht' as <-.
    unfold Asyncio.done in Hd. rewrite Hf in Hd. discriminate.
Qed.

Lemma pending_or_finished (w : World) (n : nat) (t : Asyncio.Task) :
  nth_error (Asyncio.tasks (loop w)) n = Some t ->
  pending_at w n \/ exists o, finished_at w n o.
Proof.
  intros H. destruct (Asyncio.t_state t) as [k kc | o] eqn:E.
  - left. exists t. split; [assumption |]. unfold Asyncio.done. rewrite E. reflexivity.
  - right. exists o, t. auto.
Qed.

Lemma finished_at_unique (w : World) n o o' :
  finished_at w n o -> finished_at w n o' -> o = o'.
Proof.
  intros [t [Ht Hf]] [t' [Ht' Hf']]. rewrite Ht in Ht'. injection Ht' as <-. congruence.
Qed.

Lemma drives_trans (w1 w2 w3 : World) evs evs' :
  drives w1 w2 evs -> drives w2 w3 evs' -> drives w1 w3 (evs ++ evs').
Proof.
  intros A B. constructor.
  - rewrite (dr_env _ _ _ B). apply A.
  - rewrite (dr_self _ _ _ B). apply A.
  - rewrite (dr_heap _ _ _ B). apply A.
  - rewrite <- (dr_loop _ _ _ A) at 2. rewrite <- (dr_loop _ _ _ B). reflexivity.
  - rewrite (dr_trace _ _ _ B), (dr_trace _ _ _ A). symmetry. apply app_assoc.
  - apply Forall_app. split; [apply A | apply B].
  - eapply Forall2_compose; [apply A | apply B |].
    intros a b c [n ->] [m ->]. exists (m + n). symmetry. apply Nat.iter_add.
  - rewrite (dr_length _ _ _ B). apply A.
  - intros n o H. apply (dr_keeps _ _ _ B), (dr_keeps _ _ _ A), H.
  - intros n o Hp Hf. apply in_or_app.
    destruct Hp as [t [Ht Hd]].
    assert (Hlen : n < List.length (Asyncio.tasks (loop w2))).
    { rewrite (dr_length _ _ _ A). apply nth_error_Some. congruence. }
    apply nth_error_Some in Hlen.
    destruct (nth_error (Asyncio.tasks (loop w2)) n) as [t2 |] eqn:E2; [| congruence].
    destruct (pending_or_finished w2 n t2 E2) as [Hp2 | [o2 Hf2]].
    + right. apply (dr_reports _ _ _ B); assumption.
    + left. apply (dr_reports _ _ _ A); [exists t; auto |].
      rewrite (finished_at_unique w3 n o o2 Hf (dr_keeps _ _ _ B _ _ Hf2)). assumption.
Qed.

Lemma Forall2_nth_l {A B} (R : A -> B -> Prop) (l : list A) (l' : list B) :
  Forall2 R l l' ->
  forall n x, nth_error l n = Some x -> exists y, nth_error l' n = Some y /\ R x y.
Proof.
  induction 1 as [| a b l l' Hab _ IH]; intros n x Hn.
  - destruct n; discriminate.
  - destruct n as [| n]; simpl in *.
    + injection Hn as <-. eauto.
    + eauto.
Qed.

Lemma run_once_drives (w w' : World) (r : Res unit) :
  run_once w = (r, w') -> exists evs, drives w w' evs.
Proof.
  unfold run_once, Asyncio.run_once.
  destruct (Asyncio.iterate 0 (Asyncio.tasks (loop w))) as [[ts evs] x] eqn:I.
  intros H. exists evs.
  assert (Hw : w' = record evs (with_loop (Asyncio.with_tasks ts (loop w)) w))
    by (destruct x; injection H as _ <-; reflexivity).
  subst w'. clear H.
  pose proof (AsyncioFacts.iterate_pointwise _ _ _ _ _ I) as P.
  constructor; simpl; try reflexivity.
  - destruct (loop w); reflexivity.
  - eapply AsyncioFacts.iterate_events; eassumption.
  - eapply Forall2_impl; [| exact P].
    intros a b [-> | ->]; [exists 0 | exists 1]; reflexivity.
  - symmetry. eapply Forall2_length; eassumption.
  - intros n o [t [Ht Hf]]. unfold finished_at. simpl.
    destruct (Forall2_nth_l _ _ _ P _ _ Ht) as [t' [Ht' [-> | ->]]].
    + exists t. auto.
    + exists (Asyncio.step_task t). split; [assumption |].
      rewrite AsyncioFacts.step_task_done; [assumption |].
      unfold Asyncio.done. rewrite Hf. reflexivity.
  - intros n o [t [Ht Hd]] [t' [Ht' Hf]]. simpl in Ht'.
    apply (AsyncioFacts.iterate_reports _ _ _ _ _ _ _ _ _ I Ht Ht' Hd Hf).
Qed.

Lemma iterate_interrupt (ts : list Asyncio.Task) : forall i ts' evs e,
  Asyncio.iterate i ts = (ts', evs, Some e) ->
  is_exit e = true /\ exists n, In (TaskFinished n (Raised e)) evs.
Proof.
  induction ts as [| t r IH]; intros i ts' evs e H; simpl in H; [discriminate |].
  destruct (Asyncio.t_state t) as [k kc | o] eqn:E.
  - destruct (Asyncio.t_state (Asyncio.step_task t)) as [k' kc' | o'] eqn:E'.
    + destruct (Asyncio.iterate (S i) r) as [[r' evs'] x'] eqn:R.
      injection H as _ <- ->. eauto.
    + destruct (Asyncio.exits o') as [e' |] eqn:X.
      * injection H as _ <- ->. destruct o' as [| e0]; simpl in X; [discriminate |].
        destruct (is_exit e0) eqn:Ex; [| discriminate]. injection X as ->.
        split; [assumption |]. exists i. left. reflexivity.
      * destruct (Asyncio.iterate (S i) r) as [[r' evs'] x'] eqn:R.
        injection H as _ <- ->. destruct (IH _ _ _ _ R) as [He [n Hn]].
        split; [assumption |]. exists n. right. assumption.
  - destruct (Asyncio.iterate (S i) r) as [[r' evs'] x'] eqn:R.
    injection H as _ <- ->. eauto.
Qed.

Lemma run_once_ok (w w' : World) :
  run_once w = (Ok tt, w') ->
  Asyncio.tasks (loop w') = map Asyncio.step_task (Asyncio.tasks (loop w)).
Proof.
  unfold run_once, Asyncio.run_once.
  destruct (Asyncio.iterate 0 (Asyncio.tasks (loop w))) as [[ts evs] [e |]] eqn:I;
    intros H; [discriminate |].
  injection H as <-. simpl. eapply AsyncioFacts.iterate_complete; eassumption.
Qed.

Lemma run_once_result (w : World) :
  match fst (run_once w) with
  | Ok _ => True
  | Exc e => is_exit e = true
             /\ exists n, In (TaskFinished n (Raised e))
                             (snd (fst (Asyncio.run_once (loop w))))
  | Hang => False
  end.
Proof.
  unfold run_once, Asyncio.run_once.
  destruct (Asyncio.iterate 0 (Asyncio.tasks (loop w))) as [[ts evs] [e |]] eqn:It; simpl.
  - eapply iterate_interrupt; eassumption.
  - exact I.
Qed.

Lemma run_once_exc (w w' : World) (e : exn) :
  run_once w = (Exc e, w') -> is_exit e = true.
Proof.
  intros H. pose proof (run_once_result w) as R. rewrite H in R. apply R.
Qed.

Lemma run_once_no_hang (w w' : World) : run_once w <> (Hang, w').
Proof.
  intros H. pose proof (run_once_result w) as R. rewrite H in R. exact R.
Qed.

Lemma height_step (ts : list Asyncio.Task) :
  list_max (map Asyncio.task_height (map Asyncio.step_task ts))
  <= Nat.pred (list_max (map Asyncio.task_height ts)).
Proof.
  induction ts as [| t r IH]; simpl; [lia |].
  pose proof (AsyncioFacts.step_task_height t). lia.
Qed.

Lemma height_zero_done (ts : list Asyncio.Task) :
  list_max (map Asyncio.task_height ts) = 0 ->
  Forall (fun t => Asyncio.done t = true) ts.
Proof.
  induction ts as [| t r IH]; simpl; intros H; constructor.
  - unfold Asyncio.task_height, Asyncio.done in *.
    destruct (Asyncio.t_state t); [lia | reflexivity].
  - apply IH. lia.
Qed.

Lemma no_exit_step (ts : list Asyncio.Task) :
  forallb Asyncio.task_no_exit ts = true ->
  forallb Asyncio.task_no_exit (map Asyncio.step_task ts) = true.
Proof.
  induction ts as [| t r IH]; simpl; intros H; [reflexivity |].
  apply andb_true_iff in H as [Ht Hr]. apply andb_true_iff. split; [| auto].
  apply AsyncioFacts.step_task_no_exit, Ht.
Qed.

Lemma run_once_no_exit (w : World) :
  Asyncio.loop_no_exit (loop w) = true ->
  exists w', run_once w = (Ok tt, w') /\ Asyncio.loop_no_exit (loop w') = true.
Proof.
  unfold Asyncio.loop_no_exit. intros H.
  unfold run_once, Asyncio.run_once.
  destruct (Asyncio.iterate 0 (Asyncio.tasks (loop w))) as [[ts evs] x] eqn:I.
  pose proof (AsyncioFacts.iterate_no_exit _ _ _ _ _ H I) as ->.
  eexists. split; [reflexivity |]. simpl.
  rewrite (AsyncioFacts.iterate_complete _ _ _ _ I). apply no_exit_step, H.
Qed.

(** *** The future of [gather] *)

Lemma gather_result (re : bool) (tk : list Asyncio.Task) (ts : list nat) : forall os,
  Asyncio.gather_status re ts tk = Asyncio.GResult os ->
  Forall2 (fun t o => exists task, nth_error tk t = Some task
                                   /\ Asyncio.t_state task = Asyncio.Finished o
                                   /\ (re = false -> o = Returned)) ts os.
Proof.
  induction ts as [| t r IH]; simpl; intros os H.
  - injection H as <-. constructor.
  - destruct (nth_error tk t) as [task |] eqn:N; simpl in H.
    + destruct (Asyncio.t_state task) as [k kc | [| e]] eqn:S.
      * destruct (Asyncio.gather_status re r tk); discriminate.
      * destruct (Asyncio.gather_status re r tk) eqn:G; try discriminate.
        injection H as <-. constructor; [exists task; auto | auto].
      * destruct re; [| discriminate].
        destruct (Asyncio.gather_status true r tk) eqn:G; try discriminate.
        injection H as <-. constructor; [| auto].
        exists task. repeat split; auto. discriminate.
    + destruct (Asyncio.gather_status re r tk); discriminate.
Qed.

Lemma gather_error (re : bool) (tk : list Asyncio.Task) (ts : list nat) : forall e,
  Asyncio.gather_status re ts tk = Asyncio.GError e ->
  re = false /\ exists t task, In t ts /\ nth_error tk t = Some task
                               /\ Asyncio.t_state task = Asyncio.Finished (Raised e).
Proof.
  induction ts as [| t r IH]; simpl; intros e H; [discriminate |].
  assert (Rec : Asyncio.gather_status re r tk = Asyncio.GError e ->
                re = false /\ exists t0 task, (t = t0 \/ In t0 r) /\ nth_error tk t0 = Some task
                               /\ Asyncio.t_state task = Asyncio.Finished (Raised e)).
  { intros G. destruct (IH _ G) as [Hre [t0 [task [Hin Ht]]]]. split; [assumption |].
    exists t0, task. auto. }
  destruct (nth_error tk t) as [task |] eqn:N; simpl in H.
  - destruct (Asyncio.t_state task) as [k kc | [| e0]] eqn:S.
    + destruct (Asyncio.gather_status re r tk) eqn:G; try discriminate.
      injection H as ->. auto.
    + destruct (Asyncio.gather_status re r tk) eqn:G; try discriminate.
      injection H as ->. auto.
    + destruct re.
      * destruct (Asyncio.gather_status true r tk) eqn:G; try discriminate.
        injection H as ->. auto.
      * injection H as ->. split; [reflexivity |]. exists t, task. auto.
  - destruct (Asyncio.gather_status re r tk) eqn:G; try discriminate.
    injection H as ->. auto.
Qed.

(** Once every task is done the future is resolved. *)
Lemma gather_settled (re : bool) (tk : list Asyncio.Task) (ts : list nat) :
  Forall (fun t => t < List.length tk) ts ->
  Forall (fun t => Asyncio.done t = true) tk ->
  Asyncio.gather_status re ts tk <> Asyncio.GPending.
Proof.
  intros Hv Hd. induction Hv as [| t r Ht _ IH]; simpl; [discriminate |].
  apply nth_error_Some in Ht.
  destruct (nth_error tk t) as [task |] eqn:N; [| congruence]. simpl.
  assert (D : Asyncio.done task = true).
  { rewrite Forall_forall in Hd. apply Hd. eapply nth_error_In; eassumption. }
  unfold Asyncio.done in D.
  destruct (Asyncio.t_state task) as [k kc | [| e]]; [discriminate | |].
  - destruct (Asyncio.gather_status re r tk); congruence.
  - destruct re; [| discriminate].
    destruct (Asyncio.gather_status true r tk); congruence.
Qed.

(** With [return_exceptions] the future never carries an exception. *)
Lemma gather_collects (tk : list Asyncio.Task) (ts : list nat) (e : exn) :
  Asyncio.gather_status true ts tk <> Asyncio.GError e.
Proof.
  intros H. apply gather_error in H as [H _]. discriminate.
Qed.

(** *** [run_until_complete] *)

Lemma drive_until_drives (fuel : nat) (re : bool) (ts : list nat) : forall w r w',
  drive_until fuel re ts w = (r, w') ->
  exists evs, drives w w' evs /\
    match r with
    | Ok os => Asyncio.gather_status re ts (Asyncio.tasks (loop w')) = Asyncio.GResult os
    | Exc e => Asyncio.gather_status re ts (Asyncio.tasks (loop w')) = Asyncio.GError e
               \/ (is_exit e = true /\ exists n, In (TaskFinished n (Raised e)) evs)
    | Hang => True
    end.
Proof.
  induction fuel as [| fuel IH]; intros w r w' H; simpl in H;
    destruct (Asyncio.gather_status re ts (Asyncio.tasks (loop w))) as [| os | e] eqn:G;
    try (injection H as <- <-; exists []; split; [apply drives_refl | auto]).
  destruct (run_once w) as [[[] | e |] w1] eqn:R.
  - destruct (run_once_drives _ _ _ R) as [evs1 D1].
    destruct (IH _ _ _ H) as [evs2 [D2 Hr]].
    exists (evs1 ++ evs2). split; [eapply drives_trans; eassumption |].
    destruct r as [os | e |]; auto.
    destruct Hr as [Hr | [He [n Hn]]]; [auto |].
    right. split; [assumption |]. exists n. apply in_or_app. auto.
  - injection H as <- <-.
    destruct (run_once_drives _ _ _ R) as [evs1 D1].
    exists evs1. split; [assumption |]. right.
    pose proof (run_once_result w) as Q. rewrite R in Q. simpl in Q.
    destruct Q as [He [n Hn]]. split; [assumption |]. exists n.
    pose proof (dr_trace _ _ _ D1) as T.
    unfold run_once in R.
    destruct (Asyncio.run_once (loop w)) as [[l evs] [x |]]; [| discriminate].
    injection R as _ <-. simpl in T. apply app_inv_head in T. subst evs1. exact Hn.
  - exfalso. eapply run_once_no_hang; eassumption.
Qed.

(** The drive comes to an end: it returns or raises. *)
Lemma drive_until_returns (fuel : nat) (re : bool) (ts : list nat) : forall w,
  valid ts w -> Asyncio.loop_height (loop w) <= fuel ->
  fst (drive_until fuel re ts w) <> Hang.
Proof.
  induction fuel as [| fuel IH]; intros w Hv Hh; simpl;
    destruct (Asyncio.gather_status re ts (Asyncio.tasks (loop w))) as [| os | e] eqn:G;
    try discriminate.
  - exfalso. apply (gather_settled re _ _ Hv); [| assumption].
    apply height_zero_done. unfold Asyncio.loop_height in Hh. lia.
  - destruct (run_once w) as [[[] | e |] w1] eqn:R; simpl; try discriminate.
    + pose proof (run_once_ok _ _ R) as T. apply IH.
      * unfold valid in *. rewrite T, length_map. assumption.
      * unfold Asyncio.loop_height in *. rewrite T.
        pose proof (height_step (Asyncio.tasks (loop w))). lia.
    + exfalso. eapply run_once_no_hang; eassumption.
Qed.

(** Where no task can end in [SystemExit] or [KeyboardInterrupt], only
    the awaited future decides the result. *)
Lemma drive_until_no_exit (fuel : nat) (re : bool) (ts : list nat) : forall w,
  valid ts w -> Asyncio.loop_height (loop w) <= fuel ->
  Asyncio.loop_no_exit (loop w) = true ->
  exists n,
    let w' := Nat.iter n (fun w => snd (run_once w)) w in
    snd (drive_until fuel re ts w) = w' /\
    Asyncio.tasks (loop w') = Nat.iter n (map Asyncio.step_task) (Asyncio.tasks (loop w)) /\
    match fst (drive_until fuel re ts w) with
    | Ok os => Asyncio.gather_status re ts (Asyncio.tasks (loop w')) = Asyncio.GResult os
    | Exc e => Asyncio.gather_status re ts (Asyncio.tasks (loop w')) = Asyncio.GError e
    | Hang => False
    end.
Proof.
  induction fuel as [| fuel IH]; intros w Hv Hh Hn; simpl;
    destruct (Asyncio.gather_status re ts (Asyncio.tasks (loop w))) as [| os | e] eqn:G;
    try solve [exists 0; simpl; auto].
  - exfalso. apply (gather_settled re _ _ Hv); [| assumption].
    apply height_zero_done. unfold Asyncio.loop_height in Hh. lia.
  - destruct (run_once_no_exit w Hn) as [w1 [R Hn1]]. rewrite R.
    pose proof (run_once_ok _ _ R) as T.
    assert (Hv1 : valid ts w1).
    { unfold valid in *. rewrite T, length_map. assumption. }
    assert (Hh1 : Asyncio.loop_height (loop w1) <= fuel).
    { unfold Asyncio.loop_height in *. rewrite T.
      pose proof (height_step (Asyncio.tasks (loop w))). lia. }
    destruct (IH w1 Hv1 Hh1 Hn1) as [n Hr]. cbv zeta in Hr.
    destruct Hr as [Hw [Ht Hr]].
    exists (S n). cbv zeta. rewrite !Nat.iter_succ_r. rewrite R. simpl.
    rewrite <- T. auto.
Qed.

#[local] Arguments String.append : simpl never.

(** ** The shutdown tasks of [stop] *)

Lemma step_runs_to (o : outcome) (t : Asyncio.Task) :
  runs_to o t -> runs_to o (Asyncio.step_task t).
Proof.
  unfold runs_to, Asyncio.step_task.
  destruct (Asyncio.t_state t) as [k kc | o'] eqn:E; simpl.
  - intros [-> <-]. destruct k as [o' | k' kc']; simpl; auto.
  - rewrite E. auto.
Qed.

Lemma expects_step (tk : list Asyncio.Task) (ts : list nat) (os : list outcome) :
  expects tk ts os -> expects (map Asyncio.step_task tk) ts os.
Proof.
  unfold expects. induction 1 as [| t o ts os [task [Hn Hr]] _ IH]; constructor; auto.
  exists (Asyncio.step_task task). split; [| apply step_runs_to, Hr].
  rewrite nth_error_map, Hn. reflexivity.
Qed.

Lemma expects_iter (n : nat) (tk : list Asyncio.Task) (ts : list nat) (os : list outcome) :
  expects tk ts os -> expects (Nat.iter n (map Asyncio.step_task) tk) ts os.
Proof.
  intros H. induction n as [| n IH]; simpl; [assumption | apply expects_step, IH].
Qed.

Lemma expects_result (tk : list Asyncio.Task) (ts : list nat) (os0 : list outcome) :
  expects tk ts os0 -> forall os,
  Asyncio.gather_status false ts tk = Asyncio.GResult os ->
  Forall (fun o => o = Returned) os0.
Proof.
  intros H os G. apply gather_result in G. revert os G.
  induction H as [| t o ts os0 [task [Hn Hr]] _ IH]; intros os G; constructor.
  - inversion G as [| ? o1 ? os1 [task1 [Hn1 [Hs1 Hre]]] ?]; subst.
    rewrite Hn in Hn1. injection Hn1 as <-.
    unfold runs_to in Hr. rewrite Hs1 in Hr. rewrite <- Hr. auto.
  - inversion G; subst. eauto.
Qed.

Lemma expects_error (tk : list Asyncio.Task) (ts : list nat) (os0 : list outcome) (e : exn) :
  expects tk ts os0 ->
  Asyncio.gather_status false ts tk = Asyncio.GError e -> In (Raised e) os0.
Proof.
  intros H G. apply gather_error in G as [_ [t [task [Hin [Hn Hs]]]]].
  induction H as [| t0 o ts os0 [task0 [Hn0 Hr]] _ IH]; [contradiction |].
  destruct Hin as [-> | Hin].
  - left. rewrite Hn in Hn0. injection Hn0 as <-.
    unfold runs_to in Hr. rewrite Hs in Hr. auto.
  - right. auto.
Qed.

Lemma update_last {A} (f : A -> A) (l : list A) (x : A) :
  Asyncio.update (List.length l) f (l ++ [x]) = l ++ [f x].
Proof.
  induction l as [| a l IH]; simpl; [reflexivity | f_equal; assumption].
Qed.

(** [stop] creates one task per feed, in the order of the feeds, with
    consecutive ids. *)
Lemma create_shutdown_tasks_spec (fs : list Feed) : forall w,
  create_shutdown_tasks fs w =
  (Ok (seq (List.length (Asyncio.tasks (loop w))) (List.length fs)),
   record (map TaskCreated (seq (List.length (Asyncio.tasks (loop w))) (List.length fs)))
     (with_loop
        (Asyncio.with_tasks (Asyncio.tasks (loop w) ++ map (shutdown_task (env w)) fs)
           (loop w)) w)).
Proof.
  induction fs as [| f r IH]; intros [e s l h tr].
  - simpl. unfold ret, record, with_loop, Asyncio.with_tasks. simpl.
    rewrite !app_nil_r. destruct l; reflexivity.
  - simpl create_shutdown_tasks. unfold bind, create_task, Asyncio.create_task. simpl.
    unfold shutdown_task.
    destruct (have_set_name e) eqn:Hs; simpl;
      unfold set_name, Asyncio.set_name, ret; simpl; rewrite ?update_last;
      rewrite IH; unfold record, with_loop, Asyncio.with_tasks, shutdown_task; simpl;
      rewrite !length_app; simpl; rewrite Nat.add_1_r;
      rewrite <- !app_assoc; simpl; rewrite Hs; reflexivity.
Qed.

#[local] Arguments stop_prelude : simpl never.

Lemma stop_unfold (w : World) :
  stop w =
  match drive_until (Asyncio.loop_height (loop (stop_scheduled w))) false
          (shutdown_ids w) (stop_scheduled w) with
  | (Ok _, w') => (Ok tt, record [Leave "stop" true] w')
  | (Exc e, w') => (Exc e, record [Leave "stop" false] w')
  | (Hang, w') => (Hang, w')
  end.
Proof.
  unfold stop, method, bind, LOG, emit, set_retries, run_until_complete_gather.
  simpl. rewrite create_shutdown_tasks_spec. simpl.
  rewrite length_seq.
  replace (record _ (record _ _)) with (stop_scheduled w).
  - unfold shutdown_ids.
    destruct (drive_until _ _ _ _) as [[os | e |] w']; reflexivity.
  - destruct w as [e s l h tr]. unfold stop_scheduled, stop_prelude, record, with_loop,
      with_self. simpl. rewrite <- !app_assoc. reflexivity.
Qed.

Lemma expects_drives (w w' : World) evs ts os :
  drives w w' evs ->
  expects (Asyncio.tasks (loop w)) ts os -> expects (Asyncio.tasks (loop w')) ts os.
Proof.
  intros D. unfold expects. induction 1 as [| t o ts os [task [Hn Hr]] _ IH]; constructor; auto.
  destruct (Forall2_nth_l _ _ _ (dr_steps _ _ _ D) _ _ Hn) as [task' [Hn' [n ->]]].
  exists (Nat.iter n Asyncio.step_task task). split; [assumption |].
  clear Hn'. induction n as [| n IHn]; simpl; [assumption | apply step_runs_to, IHn].
Qed.

Lemma expects_shutdown (e : Env) (fs : list Feed) : forall pre,
  expects (pre ++ map (shutdown_task e) fs) (seq (List.length pre) (List.length fs))
    (map (fun f => final (feed_shutdown f)) fs).
Proof.
  induction fs as [| f r IH]; intros pre; simpl; constructor.
  - exists (shutdown_task e f). split.
    + rewrite nth_error_app2, Nat.sub_diag by lia. reflexivity.
    + unfold runs_to. simpl. auto.
  - specialize (IH (pre ++ [shutdown_task e f])).
    rewrite <- app_assoc, length_app, Nat.add_1_r in IH. exact IH.
Qed.

Lemma stop_scheduled_expects (w : World) :
  expects (Asyncio.tasks (loop (stop_scheduled w))) (shutdown_ids w)
    (map (fun f => final (feed_shutdown f)) (feeds (self w))).
Proof.
  unfold stop_scheduled, shutdown_ids. simpl. apply expects_shutdown.
Qed.

Lemma stop_scheduled_valid (w : World) : valid (shutdown_ids w) (stop_scheduled w).
Proof.
  unfold valid, shutdown_ids, stop_scheduled. simpl.
  apply Forall_forall. intros t Ht. apply in_seq in Ht.
  rewrite length_app, length_map. lia.
Qed.

Lemma stop_scheduled_no_exit (w : World) :
  stop_no_exit w = true -> Asyncio.loop_no_exit (loop (stop_scheduled w)) = true.
Proof.
  unfold stop_no_exit, Asyncio.loop_no_exit, stop_scheduled. simpl. intros H.
  apply andb_true_iff in H as [Hl Hf]. rewrite forallb_app, Hl. simpl.
  rewrite forallb_forall in *. intros t Ht. apply in_map_iff in Ht as [f [<- Hin]].
  unfold Asyncio.task_no_exit. simpl. rewrite (Hf _ Hin). reflexivity.
Qed.

Lemma expects_nth (tk : list Asyncio.Task) (fs : list Feed) (n0 : nat) (e : exn) :
  expects tk (seq n0 (List.length fs)) (map (fun f => final (feed_shutdown f)) fs) ->
  forall t task, In t (seq n0 (List.length fs)) ->
  nth_error tk t = Some task -> Asyncio.t_state task = Asyncio.Finished (Raised e) ->
  exists i f, t = n0 + i /\ nth_error fs i = Some f /\ final (feed_shutdown f) = Raised e.
Proof.
  revert n0. induction fs as [| f r IH]; intros n0 H t task Hin Hn Hs; simpl in *;
    [contradiction |].
  inversion H as [| ? ? ? ? [task0 [Hn0 Hr]] Hrest]; subst.
  destruct Hin as [<- | Hin].
  - exists 0, f. rewrite Nat.add_0_r. repeat split.
    rewrite Hn in Hn0. injection Hn0 as <-. unfold runs_to in Hr. rewrite Hs in Hr. auto.
  - destruct (IH _ Hrest _ _ Hin Hn Hs) as [i [f0 [-> [Hi Hf]]]].
    exists (S i), f0. repeat split; auto; lia.
Qed.

(** ** C1: the fan-out of [stop] *)



(** ** C7: the flag of [stop] *)

Lemma run_once_self (w : World) : self (snd (run_once w)) = self w.
Proof.
  unfold run_once. destruct (Asyncio.run_once (loop w)) as [[l evs] [e |]]; reflexivity.
Qed.

Lemma iterations_self (k : nat) (w : World) :
  self (Nat.iter k (fun w => snd (run_once w)) w) = self w.
Proof.
  induction k as [| k IH]; simpl; [reflexivity |]. rewrite run_once_self. exact IH.
Qed.


(** ** The cancellations of [close] *)

Lemma world_eq (w1 w2 : World) :
  env w1 = env w2 -> self w1 = self w2 -> loop w1 = loop w2 -> heap w1 = heap w2 ->
  trace w1 = trace w2 -> w1 = w2.
Proof.
  destruct w1, w2. simpl. intros -> -> -> -> ->. reflexivity.
Qed.

Lemma for_each_cancel (ts : list nat) : forall w,
  for_each ts cancel w
  = (Ok tt, record (map TaskCancel ts) (with_loop (cancel_all ts (loop w)) w)).
Proof.
  induction ts as [| t r IH]; intros w; simpl.
  - unfold ret. f_equal. apply world_eq; simpl; auto using app_nil_r.
  - unfold bind, cancel. simpl. rewrite IH. f_equal.
    apply world_eq; simpl; auto. rewrite <- app_assoc. reflexivity.
Qed.

Lemma update_states (n : nat) (l : list Asyncio.Task) : forall k,
  Forall2 (fun t t' => Asyncio.t_state t' = Asyncio.t_state t)
    l (Asyncio.update k Asyncio.cancel_task l).
Proof.
  induction l as [| t r IH]; intros k; [destruct k; constructor |].
  destruct k as [| k]; simpl.
  - constructor.
    + unfold Asyncio.cancel_task. destruct (Asyncio.done t); reflexivity.
    + clear. induction r; constructor; auto.
  - constructor; auto.
Qed.

(** A cancellation changes no state: it is delivered at the next step. *)
Lemma cancel_all_states (ts : list nat) : forall l,
  Forall2 (fun t t' => Asyncio.t_state t' = Asyncio.t_state t)
    (Asyncio.tasks l) (Asyncio.tasks (cancel_all ts l)).
Proof.
  induction ts as [| t r IH]; intros l; simpl.
  - induction (Asyncio.tasks l); constructor; auto.
  - eapply Forall2_compose; [| apply IH |].
    + apply (update_states 0 (Asyncio.tasks l) t).
    + simpl. intros a b c -> ->. reflexivity.
Qed.

Lemma states_no_exit (l l' : list Asyncio.Task) :
  Forall2 (fun t t' => Asyncio.t_state t' = Asyncio.t_state t) l l' ->
  forallb Asyncio.task_no_exit l' = forallb Asyncio.task_no_exit l.
Proof.
  induction 1 as [| t t' l l' Ht _ IH]; simpl; [reflexivity |].
  unfold Asyncio.task_no_exit at 1 3. rewrite Ht, IH. reflexivity.
Qed.

Lemma pending_from_spec (ts : list Asyncio.Task) : forall i t,
  In t (Asyncio.pending_from i ts) <->
  exists task, i <= t /\ nth_error ts (t - i) = Some task /\ Asyncio.done task = false.
Proof.
  induction ts as [| t0 r IH]; intros i t; simpl.
  - split; [contradiction |]. intros [task [_ [H _]]]. destruct (t - i); discriminate.
  - destruct (Asyncio.done t0) eqn:D0.
    + rewrite IH. split.
      * intros [task [Hi [Hn Hd]]]. exists task. split; [lia |]. split; [| assumption].
        replace (t - i) with (S (t - S i)) by lia. assumption.
      * intros [task [Hi [Hn Hd]]].
        destruct (t - i) as [| k] eqn:K; simpl in Hn; [congruence |].
        exists task. split; [lia |]. split; [| assumption].
        replace (t - S i) with k by lia. assumption.
    + simpl. rewrite IH. split.
      * intros [<- | [task [Hi [Hn Hd]]]].
        -- exists t0. rewrite Nat.sub_diag. auto.
        -- exists task. split; [lia |]. split; [| assumption].
           replace (t - i) with (S (t - S i)) by lia. assumption.
      * intros [task [Hi [Hn Hd]]].
        destruct (t - i) as [| k] eqn:K; simpl in Hn.
        -- left. lia.
        -- right. exists task. split; [lia |]. split; [| assumption].
           replace (t - S i) with k by lia. assumption.
Qed.

Lemma all_tasks_pending (w : World) (t : nat) :
  In t (Asyncio.all_tasks (loop w)) <-> pending_at w t.
Proof.
  unfold Asyncio.all_tasks, pending_at. rewrite pending_from_spec.
  rewrite Nat.sub_0_r. split.
  - intros [task [_ H]]. exists task. exact H.
  - intros [task H]. exists task. split; [lia | exact H].
Qed.

#[local] Arguments cancel_events : simpl never.
#[local] Arguments finalize_events : simpl never.

Lemma close_unfold (w : World) :
  close w =
  match run_once (close_entered w) with
  | (Ok _, w2) =>
      match drive_until (Asyncio.loop_height (loop (close_cancelled (cleared w2)))) true
              (Asyncio.all_tasks (loop (cleared w2))) (close_cancelled (cleared w2)) with
      | (Ok _, w4) => (Ok tt, close_finished w4)
      | (Exc e, w4) => (Exc e, record [Leave "close" false] w4)
      | (Hang, w4) => (Hang, w4)
      end
  | (Exc e, w2) => (Exc e, record [Leave "close" false] (cleared w2))
  | (Hang, w2) => (Hang, w2)
  end.
Proof.
  unfold close, method, run_forever, run_until_complete_gather, LOG, try_finally.
  unfold bind, emit, loop_stop, clear_stopping, all_tasks. simpl.
  replace (record [RunForever] _) with (close_entered w)
    by (apply world_eq; simpl; rewrite <- ?app_assoc; reflexivity).
  destruct (run_once (close_entered w)) as [[[] | e |] w2]; try reflexivity.
  rewrite for_each_cancel. simpl.
  replace (record [Log INFO "FH: run the pending tasks until complete"] _)
    with (close_cancelled (cleared w2)).
  - destruct (drive_until _ _ _ _) as [[os | e |] w4]; try reflexivity.
    unfold shutdown_asyncgens, loop_close. simpl. f_equal.
    apply world_eq; simpl; rewrite <- ?app_assoc; reflexivity.
  - apply world_eq; simpl; try reflexivity.
    unfold cancel_events. rewrite <- !app_assoc. reflexivity.
Qed.

Lemma calls_app (a b : list event) : calls (a ++ b) = calls a ++ calls b.
Proof. apply filter_app. Qed.

Lemma calls_none (evs : list event) :
  Forall (fun e => is_call e = false) evs -> calls evs = [].
Proof.
  induction 1 as [| e r He _ IH]; simpl; [reflexivity |]. rewrite He. exact IH.
Qed.

Lemma finishes_quiet (evs : list event) :
  Forall is_finish evs -> Forall (fun e => is_call e = false) evs.
Proof.
  apply Forall_impl. intros e [n [o ->]]. reflexivity.
Qed.

Lemma finishes_exclude (evs : list event) (e : event) :
  Forall is_finish evs -> (forall n o, e <> TaskFinished n o) -> ~ In e evs.
Proof.
  intros H Hne Hin. rewrite Forall_forall in H. destruct (H _ Hin) as [n [o ->]].
  eapply Hne. reflexivity.
Qed.

Lemma cancel_events_kinds (pending : list nat) (e : event) :
  In e (cancel_events pending) -> (exists m, e = Log INFO m) \/ exists t, e = TaskCancel t.
Proof.
  unfold cancel_events. simpl. intros [<- | H]; [eauto |].
  apply in_app_or in H as [H | [<- | []]]; [| eauto].
  apply in_map_iff in H as [t [<- _]]. eauto.
Qed.

Lemma close_cancelled_valid (w : World) :
  valid (Asyncio.all_tasks (loop w)) (close_cancelled w).
Proof.
  unfold valid. apply Forall_forall. intros t Ht.
  apply all_tasks_pending in Ht as [task [Hn _]].
  unfold close_cancelled. simpl.
  rewrite <- (Forall2_length (cancel_all_states (Asyncio.all_tasks (loop w)) (loop w))).
  apply nth_error_Some. congruence.
Qed.

Lemma close_cancelled_pending (w : World) (t : nat) :
  pending_at w t -> pending_at (close_cancelled w) t.
Proof.
  intros [task [Hn Hd]]. unfold pending_at, close_cancelled. simpl.
  destruct (Forall2_nth_l _ _ _ (cancel_all_states (Asyncio.all_tasks (loop w)) (loop w))
              _ _ Hn) as [task' [Hn' Hs]].
  exists task'. split; [assumption |]. unfold Asyncio.done in *. rewrite Hs. assumption.
Qed.

(** [close] comes to an end. *)
Lemma close_returns (w : World) : fst (close w) <> Hang.
Proof.
  rewrite close_unfold.
  destruct (run_once (close_entered w)) as [[[] | e |] w2] eqn:R; simpl; try discriminate.
  - pose proof (drive_until_returns _ true _ _ (close_cancelled_valid (cleared w2))
                  (Nat.le_refl _)) as H.
    destruct (drive_until _ _ _ _) as [[os | e |] w4]; simpl in *; congruence.
  - exfalso. eapply run_once_no_hang; eassumption.
Qed.

(** Whatever the cancelled tasks raise short of [SystemExit] and
    [KeyboardInterrupt] is kept by [gather] and does not leave [close]. *)
Lemma close_no_exit (w : World) :
  Asyncio.loop_no_exit (loop w) = true -> fst (close w) = Ok tt.
Proof.
  intros H. rewrite close_unfold.
  destruct (run_once_no_exit (close_entered w) H) as [w2 [R H2]]. rewrite R.
  assert (H3 : Asyncio.loop_no_exit (loop (close_cancelled (cleared w2))) = true).
  { unfold Asyncio.loop_no_exit, close_cancelled. cbn [loop].
    rewrite (states_no_exit _ _ (cancel_all_states _ _)). exact H2. }
  destruct (drive_until_no_exit _ true _ _ (close_cancelled_valid (cleared w2))
              (Nat.le_refl _) H3) as [n Hr].
  cbv zeta in Hr. destruct Hr as [_ [_ Hr]].
  destruct (drive_until _ _ _ _) as [[os | e |] w4]; simpl in *.
  - reflexivity.
  - exfalso. eapply gather_collects; eassumption.
  - contradiction.
Qed.

(** ** C5: the order of [close] *)


(** ** What a computation adds to the trace *)

Lemma plain_quiet (e : event) : plain e -> quiet e.
Proof. intros [H _]. exact H. Qed.

Lemma emits_ret {A} (P : event -> Prop) (a : A) : emits P (ret a).
Proof. intros w. exists []. simpl. rewrite app_nil_r. auto. Qed.

Lemma emits_raise {A} (P : event -> Prop) (e : exn) : emits P (@raise A e).
Proof. intros w. exists []. simpl. rewrite app_nil_r. auto. Qed.

Lemma emits_emit (P : event -> Prop) (e : event) : P e -> emits P (emit e).
Proof. intros H w. exists [e]. simpl. auto. Qed.

Lemma emits_bind {A B} (P : event -> Prop) (m : M A) (f : A -> M B) :
  emits P m -> (forall a, emits P (f a)) -> emits P (bind m f).
Proof.
  intros Hm Hf w. unfold bind. destruct (Hm w) as [new1 [T1 F1]].
  destruct (m w) as [[a | e |] w1]; simpl in *; try solve [exists new1; auto].
  destruct (Hf a w1) as [new2 [T2 F2]]. exists (new1 ++ new2). split.
  - rewrite T2, T1. symmetry. apply app_assoc.
  - apply Forall_app. auto.
Qed.

Lemma emits_for_each {A} (P : event -> Prop) (l : list A) (body : A -> M unit) :
  (forall a, emits P (body a)) -> emits P (for_each l body).
Proof.
  intros H. induction l as [| a r IH]; simpl.
  - apply emits_ret.
  - apply emits_bind; auto.
Qed.

Lemma emits_try_except {A} (P : event -> Prop) (m : M A) (h : exn -> option (M A)) :
  emits P m -> (forall e k, h e = Some k -> emits P k) -> emits P (try_except m h).
Proof.
  intros Hm Hh w. unfold try_except. destruct (Hm w) as [new1 [T1 F1]].
  destruct (m w) as [[a | e |] w1]; simpl in *; try solve [exists new1; auto].
  destruct (h e) as [k |] eqn:E; [| exists new1; auto].
  destruct (Hh e k E w1) as [new2 [T2 F2]]. exists (new1 ++ new2). split.
  - rewrite T2, T1. symmetry. apply app_assoc.
  - apply Forall_app. auto.
Qed.

Lemma emits_try_finally {A} (P : event -> Prop) (m : M A) (fin : M unit) :
  emits P m -> emits P fin -> emits P (try_finally m fin).
Proof.
  intros Hm Hf w. unfold try_finally. destruct (Hm w) as [new1 [T1 F1]].
  destruct (m w) as [r w1]. simpl in *.
  destruct (Hf w1) as [new2 [T2 F2]].
  assert (T : trace (snd (fin w1)) = trace w ++ new1 ++ new2)
    by (rewrite T2, T1; symmetry; apply app_assoc).
  assert (F : Forall P (new1 ++ new2)) by (apply Forall_app; auto).
  destruct r as [a | e |]; [| | exists new1; auto];
    destruct (fin w1) as [[[] | e' |] w2]; simpl in *; eauto.
Qed.

Lemma emits_silent {A} (P : event -> Prop) (m : M A) :
  (forall w, trace (snd (m w)) = trace w) -> emits P m.
Proof.
  intros H w. exists []. rewrite app_nil_r. auto.
Qed.

Lemma emits_run_once (P : event -> Prop) :
  (forall n o, P (TaskFinished n o)) -> emits P run_once.
Proof.
  intros H w. destruct (run_once w) as [r w'] eqn:R.
  destruct (run_once_drives _ _ _ R) as [evs D]. exists evs. split; [apply D |].
  eapply Forall_impl; [| apply D]. intros e [n [o ->]]. apply H.
Qed.

Lemma emits_drive_until (P : event -> Prop) (fuel : nat) (re : bool) (ts : list nat) :
  (forall n o, P (TaskFinished n o)) -> emits P (drive_until fuel re ts).
Proof.
  intros H w. destruct (drive_until fuel re ts w) as [r w'] eqn:R.
  destruct (drive_until_drives _ _ _ _ _ _ R) as [evs [D _]]. exists evs.
  split; [apply D |]. eapply Forall_impl; [| apply D]. intros e [n [o ->]]. apply H.
Qed.

Lemma emits_run_forever (P : event -> Prop) :
  P RunForever -> (forall n o, P (TaskFinished n o)) -> emits P run_forever.
Proof.
  intros H0 H. unfold run_forever. apply emits_bind; [apply emits_emit, H0 |]. intros _.
  apply emits_try_finally; [| apply emits_silent; reflexivity].
  intros w. destruct (Asyncio.stopping (loop w)); [apply emits_run_once, H |].
  apply emits_bind.
  - induction (drive_rounds (env w)) as [| n IH]; simpl; [apply emits_ret |].
    apply emits_bind; [apply emits_run_once, H | auto].
  - intros _. destruct (drive_end (env w)); [apply emits_raise | apply emits_ret].
Qed.

Lemma emits_create_task (P : event -> Prop) (c : coro) :
  (forall n, P (TaskCreated n)) -> emits P (create_task c).
Proof.
  intros H w. unfold create_task. simpl. eexists. split; [reflexivity |]. auto.
Qed.

Lemma plain_finish n o : plain (TaskFinished n o).
Proof. repeat split; discriminate. Qed.

Lemma plain_created n : plain (TaskCreated n).
Proof. repeat split; discriminate. Qed.

Lemma emits_stop_body :
  emits plain
    (LOG INFO "FH: flag retries=0 to stop the tasks running the connection handlers" ;;
     set_retries 0 ;;
     LOG INFO "FH: create the tasks to properly shutdown the backends (to flush the local cache)" ;;
     shutdown_tasks <- (fun w => create_shutdown_tasks (feeds (self w)) w) ;;
     LOG INFO ("FH: wait " ^^ str_of_nat (List.length shutdown_tasks)
                 ^^ " backend tasks until termination") ;;
     run_until_complete_gather false shutdown_tasks ;;
     ret tt).
Proof.
  apply emits_bind; [emits_call | intros _].
  apply emits_bind; [emits_call | intros _].
  apply emits_bind; [emits_call | intros _].
  apply emits_bind; [| intros ts].
  { intros w. rewrite create_shutdown_tasks_spec. simpl. eexists. split; [reflexivity |].
    apply Forall_forall. intros e H. apply in_map_iff in H as [n [<- _]].
    apply plain_created. }
  apply emits_bind; [emits_call | intros _].
  apply emits_bind; [| intros; apply emits_ret].
  intros w. apply emits_drive_until, plain_finish.
Qed.

(** ** The start of [run] *)

Lemma with_tasks_same (l : Asyncio.Loop) : Asyncio.with_tasks (Asyncio.tasks l) l = l.
Proof. destruct l; reflexivity. Qed.

Lemma for_each_add_signal_handler (sigs : list signal) : forall w,
  for_each sigs add_signal_handler w
  = (Ok tt, record (map (SignalSet true) sigs)
              (with_loop (with_signal_handlers
                            (Asyncio.signal_handlers (loop w) ++ sigs) (loop w)) w)).
Proof.
  induction sigs as [| s r IH]; intros w; simpl.
  - unfold ret. f_equal. apply world_eq; simpl; auto using app_nil_r.
    unfold with_signal_handlers. rewrite app_nil_r. destruct (loop w); reflexivity.
  - unfold bind, add_signal_handler. simpl. rewrite IH. f_equal.
    apply world_eq; simpl; auto.
    + unfold with_signal_handlers. simpl. rewrite <- ?app_assoc; reflexivity.
    + rewrite <- ?app_assoc; reflexivity.
Qed.

Lemma for_each_signal_signal (sigs : list signal) : forall w,
  for_each sigs signal_signal w = (Ok tt, record (map (SignalSet false) sigs) w).
Proof.
  induction sigs as [| s r IH]; intros w; simpl.
  - unfold ret. f_equal. apply world_eq; simpl; auto using app_nil_r.
  - unfold bind, signal_signal, emit. simpl. rewrite IH. f_equal.
    apply world_eq; simpl; auto. rewrite <- ?app_assoc; reflexivity.
Qed.

Lemma create_conn_tasks (cs : list coro) : forall w,
  for_each cs (fun c => create_task c ;; ret tt) w
  = (Ok tt,
     record (map TaskCreated (seq (List.length (Asyncio.tasks (loop w))) (List.length cs)))
       (with_loop (Asyncio.with_tasks
                     (Asyncio.tasks (loop w) ++ map Asyncio.fresh_task cs) (loop w)) w)).
Proof.
  induction cs as [| c r IH]; intros w; simpl.
  - unfold ret. f_equal. apply world_eq; simpl; auto using app_nil_r.
    rewrite app_nil_r. symmetry. apply with_tasks_same.
  - unfold bind at 1 2. unfold create_task, Asyncio.create_task, ret. simpl.
    rewrite IH. f_equal. apply world_eq; simpl; auto.
    + unfold Asyncio.with_tasks. simpl. rewrite <- ?app_assoc; reflexivity.
    + rewrite ?length_app, ?Nat.add_1_r, <- ?app_assoc; reflexivity.
Qed.

Lemma for_each_feed_start (fs : list Feed) : forall w,
  for_each fs feed_start w
  = (Ok tt,
     record (start_events (List.length (Asyncio.tasks (loop w))) fs)
       (with_loop (Asyncio.with_tasks (Asyncio.tasks (loop w) ++ conn_tasks fs) (loop w))
          w)).
Proof.
  induction fs as [| f r IH]; intros w; simpl.
  - unfold ret. f_equal. apply world_eq; simpl; auto using app_nil_r.
    rewrite app_nil_r. symmetry. apply with_tasks_same.
  - unfold bind at 1. unfold feed_start at 1. unfold bind at 1. unfold emit at 1.
    rewrite create_conn_tasks. rewrite IH. f_equal.
    apply world_eq; simpl; auto.
    + unfold Asyncio.with_tasks. simpl. rewrite <- ?app_assoc; reflexivity.
    + rewrite ?length_app, ?length_map, <- ?app_assoc; reflexivity.
Qed.

Lemma run_prelude (ish : bool) (w : World) :
  ((if ish then setup_signal_handlers else ret tt) ;;
   (fun w => for_each (feeds (self w)) feed_start w)) w
  = (Ok tt, run_started ish w).
Proof.
  unfold bind. destruct ish.
  - unfold setup_signal_handlers. destruct (win32 (env w)) eqn:W.
    + rewrite for_each_signal_signal, for_each_feed_start. f_equal.
      apply world_eq; simpl; rewrite ?W; simpl; auto.
      unfold signal_events. rewrite W. simpl. rewrite <- ?app_assoc; reflexivity.
    + rewrite for_each_add_signal_handler, for_each_feed_start. f_equal.
      apply world_eq; simpl; rewrite ?W; simpl; auto.
      unfold signal_events. rewrite W. simpl. rewrite <- ?app_assoc; reflexivity.
  - unfold ret. rewrite for_each_feed_start. reflexivity.
Qed.

Lemma method_trace (P : event -> Prop) (name : string) (body : M unit) :
  emits P body -> forall w,
  exists mid, Forall P mid /\
    trace (snd (method name body w))
    = trace w ++ Enter name :: mid
      ++ match fst (method name body w) with
         | Ok _ => [Leave name true]
         | Exc _ => [Leave name false]
         | Hang => []
         end.
Proof.
  intros H w. unfold method. destruct (H (record [Enter name] w)) as [mid [T F]].
  exists mid. split; [assumption |].
  destruct (body (record [Enter name] w)) as [[[] | e |] w1]; simpl in *; rewrite T;
    rewrite <- ?app_assoc; simpl; rewrite ?app_nil_r; reflexivity.
Qed.

Lemma stop_returns (w : World) : fst (stop w) <> Hang.
Proof.
  rewrite stop_unfold.
  pose proof (drive_until_returns _ false _ _ (stop_scheduled_valid w) (Nat.le_refl _)) as H.
  destruct (drive_until _ _ _ _) as [[os | e |] w1]; simpl in *; congruence.
Qed.

(** The trace of a call of [stop]: entry, events of the body, exit. *)
Lemma stop_trace (w : World) :
  exists mid, Forall plain mid /\
    trace (snd (stop w))
    = trace w ++ Enter "stop" :: mid ++ [Leave "stop" (succeeded (fst (stop w)))].
Proof.
  destruct (method_trace plain "stop" _ emits_stop_body w) as [mid [F T]].
  fold stop in T. exists mid. split; [assumption |]. rewrite T.
  pose proof (stop_returns w) as H.
  destruct (fst (stop w)) as [[] | e |]; [reflexivity | reflexivity | congruence].
Qed.

Lemma cancel_events_quiet (pending : list nat) : Forall quiet (cancel_events pending).
Proof.
  apply Forall_forall. intros e H.
  apply cancel_events_kinds in H as [[m ->] | [t ->]]; reflexivity.
Qed.

Lemma opening_rest_quiet : Forall quiet opening_rest.
Proof. repeat constructor. Qed.

#[local] Arguments opening_rest : simpl never.

Lemma not_in_app {A} (x : A) (l1 l2 : list A) :
  ~ In x l1 -> ~ In x l2 -> ~ In x (l1 ++ l2).
Proof.
  intros H1 H2 H. apply in_app_or in H as [H | H]; auto.
Qed.

Lemma opening_rest_plain (e : event) :
  e = AsyncgensShutdown \/ e = LoopClose -> ~ In e opening_rest.
Proof.
  unfold opening_rest. simpl. intros [-> | ->] H; intuition discriminate.
Qed.

(** Up to the end of the wait for the cancelled tasks, [close] has
    neither finalized the generators nor closed the loop. *)
Lemma before_finalization (last waits : list event) (pending : list nat) (e : event) :
  Forall is_finish last -> Forall is_finish waits ->
  e = AsyncgensShutdown \/ e = LoopClose ->
  ~ In e (opening_rest ++ last ++ cancel_events pending ++ waits).
Proof.
  intros H1 H2 He.
  apply not_in_app; [apply opening_rest_plain, He |].
  apply not_in_app; [apply finishes_exclude; [exact H1 | destruct He as [-> | ->]; discriminate] |].
  apply not_in_app; [| apply finishes_exclude; [exact H2 | destruct He as [-> | ->]; discriminate]].
  intros H. apply cancel_events_kinds in H as [[m ->] | [t ->]];
    destruct He; discriminate.
Qed.

(** The trace of a call of [close]: entry, events of the body, exit; a
    call that raises has neither finalized the generators nor closed the
    loop. *)
Lemma close_trace (w : World) :
  exists mid, Forall quiet mid /\
    (succeeded (fst (close w)) = false ->
     ~ In AsyncgensShutdown mid /\ ~ In LoopClose mid) /\
    trace (snd (close w))
    = trace w ++ Enter "close" :: mid ++ [Leave "close" (succeeded (fst (close w)))].
Proof.
  pose proof (close_returns w) as H. rewrite close_unfold in *.
  destruct (run_once (close_entered w)) as [r1 w2] eqn:R.
  destruct (run_once_drives _ _ _ R) as [last D1].
  assert (T2 : trace w2 = trace w ++ [Enter "close"] ++ opening_rest ++ last).
  { rewrite (dr_trace _ _ _ D1). unfold close_entered. cbn [trace].
    change [Enter "close"; Log INFO "FH: stop the AsyncIO loop"; LoopStop;
            Log INFO "FH: run the AsyncIO event loop one last time"; RunForever]
      with ([Enter "close"] ++ opening_rest). reassoc. }
  destruct r1 as [[] | e |].
  - destruct (drive_until (Asyncio.loop_height (loop (close_cancelled (cleared w2)))) true
                (Asyncio.all_tasks (loop (cleared w2))) (close_cancelled (cleared w2)))
      as [r0 w4] eqn:D.
    destruct (drive_until_drives _ _ _ _ _ _ D) as [waits [D2 _]].
    assert (T4 : trace w4 = trace w ++ [Enter "close"] ++ opening_rest ++ last
                            ++ cancel_events (Asyncio.all_tasks (loop (cleared w2)))
                            ++ waits).
    { rewrite (dr_trace _ _ _ D2). unfold close_cancelled. cbn [trace].
      change (trace (cleared w2)) with (trace w2). rewrite T2. reassoc. }
    destruct r0 as [os | e |]; cbn [fst snd succeeded] in *.
    + exists (opening_rest ++ last ++ cancel_events (Asyncio.all_tasks (loop (cleared w2)))
              ++ waits ++ [Log INFO "FH: shutdown asynchronous generators";
                           AsyncgensShutdown; Log INFO "FH: close the AsyncIO loop";
                           LoopClose]).
      split; [| split; [discriminate |]].
      * repeat first [ apply opening_rest_quiet | apply cancel_events_quiet
                     | apply finishes_quiet, D1 | apply finishes_quiet, D2
                     | apply Forall_app; split | solve [repeat constructor] ].
      * unfold close_finished, finalize_events. cbn [trace]. rewrite T4.
        change [Log INFO "FH: shutdown asynchronous generators"; AsyncgensShutdown;
                Log INFO "FH: close the AsyncIO loop"; LoopClose; Leave "close" true]
          with ([Log INFO "FH: shutdown asynchronous generators"; AsyncgensShutdown;
                 Log INFO "FH: close the AsyncIO loop"; LoopClose]
                  ++ [Leave "close" true]).
        change (Enter "close" :: ?x) with ([Enter "close"] ++ x). reassoc.
    + exists (opening_rest ++ last ++ cancel_events (Asyncio.all_tasks (loop (cleared w2)))
              ++ waits).
      split; [| split].
      * repeat first [ apply opening_rest_quiet | apply cancel_events_quiet
                     | apply finishes_quiet, D1 | apply finishes_quiet, D2
                     | apply Forall_app; split | solve [repeat constructor] ].
      * intros _. split; apply before_finalization; auto; apply D1 || apply D2.
      * unfold record. cbn [trace]. rewrite T4.
        change (Enter "close" :: ?x) with ([Enter "close"] ++ x). reassoc.
    + exfalso. apply H. reflexivity.
  - cbn [fst snd succeeded] in *. exists (opening_rest ++ last).
    split; [| split].
    + apply Forall_app. split; [apply opening_rest_quiet | apply finishes_quiet, D1].
    + intros _. split; (apply not_in_app; [apply opening_rest_plain; auto |]);
        (apply finishes_exclude; [apply D1 | discriminate]).
    + unfold record, cleared. cbn [trace with_loop]. rewrite T2.
      change (Enter "close" :: ?x) with ([Enter "close"] ++ x). reassoc.
  - exfalso. eapply run_once_no_hang; eassumption.
Qed.

Lemma bind_assoc {A B C} (m : M A) (f : A -> M B) (g : B -> M C) (w : World) :
  bind (bind m f) g w = bind m (fun a => bind (f a) g) w.
Proof.
  unfold bind. destruct (m w) as [[a | e |] w1]; reflexivity.
Qed.

Lemma feeds_nonempty (w : World) :
  feeds (self w) <> [] -> (List.length (feeds (self w)) =? 0) = false.
Proof.
  destruct (feeds (self w)); [congruence | reflexivity].
Qed.

(** In embedding mode [run] ends when the feeds are started. *)
Lemma run_embedded (ish : bool) (eh : option string) (w : World) :
  feeds (self w) <> [] -> run false ish eh w = (Ok tt, run_started ish w).
Proof.
  intros H. unfold run. rewrite (feeds_nonempty w H). cbn [negb].
  rewrite <- bind_assoc. unfold bind at 1. rewrite run_prelude. reflexivity.
Qed.

Lemma run_driving (ish : bool) (eh : option string) (w : World) :
  feeds (self w) <> [] ->
  run true ish eh w
  = (try_finally (drive eh) (stop ;; close) ;; LOG INFO "FH: leaving run()")
      (run_started ish w).
Proof.
  intros H. unfold run. rewrite (feeds_nonempty w H). cbn [negb].
  rewrite <- bind_assoc. unfold bind at 1. rewrite run_prelude. reflexivity.
Qed.

Lemma run_iterations_returns (n : nat) : forall w, fst (run_iterations n w) <> Hang.
Proof.
  induction n as [| n IH]; intros w; simpl; [discriminate |].
  unfold bind. destruct (run_once w) as [[[] | e |] w1] eqn:R; simpl.
  - apply IH.
  - discriminate.
  - exfalso. eapply run_once_no_hang; eassumption.
Qed.

Lemma run_forever_returns (w : World) : fst (run_forever w) <> Hang.
Proof.
  unfold run_forever, bind, emit, try_finally, clear_stopping. simpl.
  destruct (Asyncio.stopping (loop w)).
  - destruct (run_once _) as [[[] | e |] w1] eqn:R; simpl; try discriminate.
    exfalso. eapply run_once_no_hang; eassumption.
  - pose proof (run_iterations_returns (drive_rounds (env w)) (record [RunForever] w)) as H.
    destruct (run_iterations _ _) as [[[] | e |] w1]; simpl in *; try congruence.
    destruct (drive_end (env w)); simpl; discriminate.
Qed.

(** The drive comes to an end, in the model by the hand of the outside. *)
Lemma drive_returns (eh : option string) (w : World) : fst (drive eh w) <> Hang.
Proof.
  unfold drive, try_except, bind.
  assert (H : forall w', fst (run_forever w') <> Hang) by apply run_forever_returns.
  destruct eh as [h |]; simpl.
  - specialize (H (snd (set_exception_handler h w))). simpl in H.
    destruct (run_forever _) as [[[] | e |] w1]; simpl in *; try congruence.
    destruct e; simpl; discriminate.
  - specialize (H w).
    destruct (run_forever w) as [[[] | e |] w1]; simpl in *; try congruence.
    destruct e; simpl; discriminate.
Qed.

Lemma close_exc (w : World) (e : exn) : fst (close w) = Exc e -> is_exit e = true.
Proof.
  rewrite close_unfold.
  destruct (run_once (close_entered w)) as [[[] | e1 |] w2] eqn:R; simpl.
  - destruct (drive_until _ _ _ _) as [[os | e2 |] w4] eqn:D; simpl; try discriminate.
    intros E. injection E as <-.
    destruct (drive_until_drives _ _ _ _ _ _ D) as [waits [_ [Hr | [Hx _]]]]; [| assumption].
    exfalso. eapply gather_collects; eassumption.
  - intros E. injection E as <-. eapply run_once_exc; eassumption.
  - discriminate.
Qed.

Lemma start_events_plain (fs : list Feed) : forall n, Forall plain (start_events n fs).
Proof.
  induction fs as [| f r IH]; intros n; simpl; constructor.
  - repeat split; discriminate.
  - apply Forall_app. split; [| apply IH].
    apply Forall_forall. intros e H. apply in_map_iff in H as [t [<- _]].
    apply plain_created.
Qed.

Lemma signal_events_plain (e : Env) : Forall plain (signal_events e).
Proof.
  apply Forall_forall. intros ev H. apply in_map_iff in H as [s [<- _]].
  repeat split; discriminate.
Qed.

Lemma run_started_trace (ish : bool) (w : World) :
  exists pre, trace (run_started ish w) = trace w ++ pre /\ Forall plain pre.
Proof.
  eexists. split; [reflexivity |]. apply Forall_app. split.
  - destruct ish; [apply signal_events_plain | constructor].
  - apply start_events_plain.
Qed.

Lemma plain_not_in (evs : list event) (e : event) :
  Forall plain evs -> e = AsyncgensShutdown \/ e = LoopClose -> ~ In e evs.
Proof.
  intros H He Hin. rewrite Forall_forall in H. destruct (H _ Hin) as [_ [H1 H2]].
  destruct He; congruence.
Qed.

Lemma calls_plain (evs : list event) : Forall plain evs -> calls evs = [].
Proof.
  intros H. apply calls_none. eapply Forall_impl; [| exact H]. apply plain_quiet.
Qed.

Lemma run_forever_trace (w : World) :
  exists rest, trace (snd (run_forever w)) = trace w ++ RunForever :: rest
               /\ Forall plain rest.
Proof.
  assert (E : emits plain
                (try_finally
                   (fun w =>
                      if Asyncio.stopping (loop w) then run_once w
                      else
                        (run_iterations (drive_rounds (env w)) ;;
                         match drive_end (env w) with
                         | None => ret tt
                         | Some e => raise e
                         end) w)
                   clear_stopping)).
  { apply emits_try_finally; [| apply emits_silent; reflexivity].
    intros w0. destruct (Asyncio.stopping (loop w0)); [apply emits_run_once, plain_finish |].
    apply emits_bind.
    - induction (drive_rounds (env w0)) as [| n IH]; simpl; [apply emits_ret |].
      apply emits_bind; [apply emits_run_once, plain_finish | auto].
    - intros _. destruct (drive_end (env w0)); [apply emits_raise | apply emits_ret]. }
  destruct (E (record [RunForever] w)) as [rest [T F]]. exists rest. split; [| assumption].
  unfold run_forever, bind, emit. cbn [fst snd] in *.
  destruct (try_finally _ _ _) as [[[] | e |] w1]; cbn [fst snd] in *; rewrite T;
    cbn [trace record]; rewrite <- app_assoc; reflexivity.
Qed.

(** The trace of the drive: the loop is entered, and nothing of the
    shutdown happens yet. *)
Lemma drive_trace (eh : option string) (w : World) :
  exists new, trace (snd (drive eh w)) = trace w ++ new
              /\ Forall plain new /\ In RunForever new.
Proof.
  unfold drive, try_except, bind.
  set (w0 := snd (match eh with Some h => set_exception_handler h | None => ret tt end w)).
  assert (T0 : exists h_evs, trace w0 = trace w ++ h_evs /\ Forall plain h_evs
                             /\ match eh with Some h => set_exception_handler h
                                         | None => ret tt end w = (Ok tt, w0)).
  { subst w0. destruct eh as [h |]; simpl.
    - eexists. split; [reflexivity |]. split; [| reflexivity].
      repeat constructor; discriminate.
    - exists []. rewrite app_nil_r. auto. }
  destruct T0 as [h_evs [T0 [F0 E0]]]. rewrite E0.
  destruct (run_forever_trace w0) as [rest [T1 F1]].
  destruct (run_forever w0) as [r1 w1]. cbn [fst snd] in T1.
  assert (T : trace w1 = trace w ++ h_evs ++ RunForever :: rest)
    by (rewrite T1, T0; reassoc).
  assert (F : Forall plain (h_evs ++ RunForever :: rest)).
  { apply Forall_app. split; [assumption |]. constructor; [| assumption].
    repeat split; discriminate. }
  assert (Irf : In RunForever (h_evs ++ RunForever :: rest))
    by (apply in_or_app; right; left; reflexivity).
  destruct r1 as [[] | e |]; cbn [fst snd]; eauto.
  assert (L : forall lv m, exists new,
             trace (snd (LOG lv m w1)) = trace w ++ new /\ Forall plain new
             /\ In RunForever new).
  { intros lv m. exists ((h_evs ++ RunForever :: rest) ++ [Log lv m]). split; [| split].
    - unfold LOG, emit, record. cbn [snd trace]. rewrite T. reassoc.
    - apply Forall_app. split; [assumption |]. repeat constructor; discriminate.
    - apply in_or_app. auto. }
  destruct e; cbn [is_Exception]; eauto.
Qed.

(** The [finally] block decides how the statement ends when it raises;
    when it returns, the statement ends as its body did, and the last log
    record of [run] is written if that was normally. *)
Lemma finally_then_log (m fin : M unit) (w : World) :
  fst (m w) <> Hang ->
  match fin (snd (m w)) with
  | (Ok _, w3) =>
      exists tl, trace (snd ((try_finally m fin ;; LOG INFO "FH: leaving run()") w))
                 = trace w3 ++ tl
                 /\ calls tl = [] /\ ~ In AsyncgensShutdown tl /\ ~ In LoopClose tl
  | (Exc e, w3) =>
      (try_finally m fin ;; LOG INFO "FH: leaving run()") w = (Exc e, w3)
  | (Hang, w3) =>
      (try_finally m fin ;; LOG INFO "FH: leaving run()") w = (Hang, w3)
  end.
Proof.
  intros H. unfold bind, try_finally. destruct (m w) as [[[] | e1 |] w1]; cbn [fst snd] in *;
    [| | congruence]; destruct (fin w1) as [[[] | e |] w3]; try reflexivity.
  - exists [Log INFO "FH: leaving run()"]. repeat split; try reflexivity;
      simpl; intuition discriminate.
  - exists []. rewrite app_nil_r. repeat split; auto.
Qed.

(** ** C2: the shutdown protocol of [run] *)




(** ** C3: [run] without feeds *)

(** C3.  With no registered feed [run] logs the message at critical
    severity and raises [ValueError] with it (the configuration error of
    the spec), and that is all it does: the world is otherwise the one it
    was called in, so no feed is started, no signal handler is installed,
    and the loop is not driven. *)
Theorem run_without_feeds_fails (start_loop ish : bool) (eh : option string) (w : World) :
  feeds (self w) = [] ->
  run start_loop ish eh w
  = (Exc (ValueError (no_feed_txt (env w))),
     record [Log CRITICAL (no_feed_txt (env w))] w).
Proof.
  intros H. unfold run. rewrite H. reflexivity.
Qed.

Lemma run_without_feeds_fails_witness :
  feeds (self Sample.empty) = [] /\
  run true true None Sample.empty
  = (Exc (ValueError (no_feed_txt (env Sample.empty))),
     record [Log CRITICAL (no_feed_txt (env Sample.empty))] Sample.empty).
Proof.
  split; [reflexivity |].
  apply (run_without_feeds_fails true true None Sample.empty). reflexivity.
Defined.

(** ** C6: [run] in embedding mode *)

Lemma feed_starts_app (a b : list event) :
  feed_starts (a ++ b) = feed_starts a ++ feed_starts b.
Proof. apply flat_map_app. Qed.

Lemma feed_starts_created (l : list nat) : feed_starts (map TaskCreated l) = [].
Proof. induction l; simpl; auto. Qed.

Lemma feed_starts_start_events (fs : list Feed) : forall n,
  feed_starts (start_events n fs) = map feed_id fs.
Proof.
  induction fs as [| f r IH]; intros n; simpl; [reflexivity |].
  change (feed_starts (?a ++ ?b)) with (feed_starts (a ++ b)).
  f_equal. fold (feed_starts (map TaskCreated (seq n (List.length (feed_conn f)))
                              ++ start_events (n + List.length (feed_conn f)) r)).
  rewrite feed_starts_app, feed_starts_created, IH. reflexivity.
Qed.

Lemma start_events_kinds (fs : list Feed) : forall n e,
  In e (start_events n fs) -> (exists id, e = FeedStart id) \/ exists t, e = TaskCreated t.
Proof.
  induction fs as [| f r IH]; intros n e; simpl; [contradiction |].
  intros [<- | H]; [eauto |]. apply in_app_or in H as [H | H]; [| eauto].
  apply in_map_iff in H as [t [<- _]]. eauto.
Qed.

(** C6.  With [start_loop] false and at least one feed, [run] returns
    normally after it has started every registered feed once, in order (and
    installed the signal handlers, if asked to).  Its trace holds nothing
    else: the loop is not driven, no exception handler is set, [stop] and
    [close] are not entered.  The tasks of the loop are the earlier ones,
    untouched, and the new tasks of the feeds; the handler of the loop and
    the handler object are as before, and the loop is not closed. *)
Theorem run_embedded_only_starts (ish : bool) (eh : option string) (w : World) :
  feeds (self w) <> [] ->
  let n0 := List.length (Asyncio.tasks (loop w)) in
  let fs := feeds (self w) in
  let w' := snd (run false ish eh w) in
  fst (run false ish eh w) = Ok tt /\
  trace w' = trace w ++ (if ish then signal_events (env w) else []) ++ start_events n0 fs /\
  feed_starts (start_events n0 fs) = map feed_id fs /\
  (forall e, In e (start_events n0 fs) ->
             (exists id, e = FeedStart id) \/ exists t, e = TaskCreated t) /\
  Asyncio.tasks (loop w') = Asyncio.tasks (loop w) ++ conn_tasks fs /\
  Asyncio.exception_handler (loop w') = Asyncio.exception_handler (loop w) /\
  Asyncio.closed (loop w') = Asyncio.closed (loop w) /\
  self w' = self w.
Proof.
  intros H. cbv zeta. rewrite (run_embedded ish eh w H). cbn [fst snd].
  split; [reflexivity |]. split; [reflexivity |].
  split; [apply feed_starts_start_events |]. split; [apply start_events_kinds |].
  unfold run_started. cbn [loop self].
  destruct (ish && negb (win32 (env w))); auto.
Qed.

Lemma run_embedded_only_starts_witness :
  feeds (self Sample.quick_and_slow) <> [] /\
  fst (run false false (Some "handler") Sample.quick_and_slow) = Ok tt /\
  trace (snd (run false false (Some "handler") Sample.quick_and_slow))
  = [FeedStart "QUICK"; TaskCreated 0; FeedStart "SLOW"; TaskCreated 1].
Proof.
  split; [vm_compute; discriminate |].
  destruct (run_embedded_only_starts false (Some "handler") Sample.quick_and_slow)
    as [R [T _]]; [vm_compute; discriminate |].
  split; [exact R | rewrite T; reflexivity].
Defined.

(** ** C4: registration *)

Lemma lookup_in (name : string) (d : list (string * FeedClass)) :
  In name (map fst d) -> exists cls, lookup name d = Some cls /\ In (name, cls) d.
Proof.
  induction d as [| [k c] r IH]; simpl; [contradiction |].
  destruct (String.eqb_spec name k) as [-> | Hne].
  - intros _. exists c. auto.
  - intros [H | H]; [congruence |]. destruct (IH H) as [cls [L I]]. eauto.
Qed.

Lemma lookup_not_in (name : string) (d : list (string * FeedClass)) :
  ~ In name (map fst d) -> lookup name d = None.
Proof.
  induction d as [| [k c] r IH]; simpl; [reflexivity |].
  intros H. destruct (String.eqb_spec name k) as [-> | Hne]; [exfalso; auto |].
  apply IH. auto.
Qed.



(** ** C10: [add_feed_running] *)

(** C10.  [add_feed_running] passes the keys of its keyword arguments to
    [add_feed] as further positional arguments.  With at least one keyword
    argument the call therefore raises [TypeError] before anything is
    built, registered or started: the world is unchanged.  A call that
    returns normally had no keyword argument; it has appended one feed to
    [self.feeds], as [add_feed] does without options, and started that feed
    on the loop. *)
Theorem add_feed_running_drops_kwargs (feed : feed_spec) (kw : kwargs) (w : World) :
  (kw <> [] ->
   add_feed_running feed kw w = (Exc (too_many_arguments (2 + List.length kw)), w)) /\
  (fst (add_feed_running feed kw w) = Ok tt ->
   kw = [] /\
   exists f, add_feed feed [] w = (Ok tt, registered f w) /\
             add_feed_running feed kw w = feed_start f (registered f w)).
Proof.
  split.
  - intros H. destruct kw as [| [k v] r]; [congruence |].
    unfold add_feed_running, add_feed_call, bind, raise, too_many_arguments.
    cbn [map List.length fst Nat.add]. rewrite length_map. reflexivity.
  - destruct kw as [| [k v] r]; [| discriminate]. intros H. split; [reflexivity |].
    unfold add_feed_running, add_feed_call, bind, add_feed, append_feed, raise in *.
    cbn [map] in *. cbn beta in *.
    destruct feed as [name | f0].
    + destruct (lookup name (_EXCHANGES (env w))) as [cls |]; [| discriminate].
      eexists. split; [reflexivity |]. cbn [self with_self feeds].
      rewrite rev_app_distr. reflexivity.
    + exists f0. split; [reflexivity |]. cbn [self with_self feeds].
      rewrite rev_app_distr. reflexivity.
Qed.

Lemma add_feed_running_drops_kwargs_witness :
  [("timeout", PStr "5")] <> [] /\
  add_feed_running (ByName "SLOW") [("timeout", PStr "5")] Sample.empty
  = (Exc (too_many_arguments 3), Sample.empty).
Proof.
  split; [discriminate |].
  apply (proj1 (add_feed_running_drops_kwargs (ByName "SLOW") [("timeout", PStr "5")]
                  Sample.empty)).
  discriminate.
Defined.

(** ** C8: [add_nbbo] *)

Lemma for_each_add_instance (g : FeedClass -> Env -> Feed) (fds : list FeedClass) :
  forall w,
  for_each fds (fun feed => fun w => add_feed (Instance (g feed (env w))) [] w) w
  = (Ok tt,
     {| env := env w;
        self := {| feeds := feeds (self w) ++ map (fun feed => g feed (env w)) fds;
                   config := config (self w); retries := retries (self w) |};
        loop := loop w; heap := heap w; trace := trace w |}).
Proof.
  induction fds as [| c r IH]; intros w; simpl.
  - unfold ret. f_equal. apply world_eq; simpl; auto.
    rewrite app_nil_r. destruct (self w); reflexivity.
  - unfold bind, append_feed. simpl. rewrite IH. f_equal.
    apply world_eq; simpl; auto. rewrite <- app_assoc. reflexivity.
Qed.

(** C8.  [add_nbbo] builds one aggregator, bound to the callback and the
    symbols, at a fresh address of the heap, and registers one feed per
    feed class, in order.  Each feed is built from its class with exactly
    three keyword arguments: the channel list that holds [L2_BOOK] alone,
    the given symbols, and the callbacks that map [L2_BOOK] to the address
    of that one aggregator, so that all the feeds share it.  Nothing else
    changes. *)
Theorem add_nbbo_registers (fds : list FeedClass) (syms : list string) (cb_fn : string)
        (w : World) :
  add_nbbo fds syms cb_fn w
  = (Ok tt,
     {| env := env w;
        self :=
          {| feeds :=
               feeds (self w)
               ++ map (fun feed =>
                         new_feed feed
                           [("channels", PList [PStr (L2_BOOK (env w))]);
                            ("symbols", PList (map PStr syms));
                            ("callbacks",
                             PDict [(L2_BOOK (env w), PRef (List.length (heap w)))])])
                    fds;
             config := config (self w); retries := retries (self w) |};
        loop := loop w;
        heap := heap w ++ [NBBO.new cb_fn syms];
        trace := trace w |}).
Proof.
  unfold add_nbbo, bind, NBBO_new.
  rewrite (for_each_add_instance
             (fun feed e => new_feed feed (nbbo_kwargs (L2_BOOK e) syms (List.length (heap w))))).
  reflexivity.
Qed.

(** ** C9: the aggregate of the NBBO *)
Module NBBOFacts.
Import NBBO.

Section Pick.
Variable better : PerSourceQuote -> PerSourceQuote -> bool.
Hypothesis better_trans : forall c r x,
  better c r = true -> better r x = true -> better c x = true.
Hypothesis better_over : forall c r x,
  better c r = true -> better x r = false -> better c x = true.

Let step (best c : PerSourceQuote) : PerSourceQuote := if better c best then c else best.

(** The pass keeps the first of the best entries: it beats every entry
    before it and no entry after it beats it. *)
Lemma fold_first_best (l : list PerSourceQuote) : forall pre r post,
  (forall y, In y pre -> better r y = true) ->
  (forall y, In y post -> better y r = false) ->
  exists l1 l2,
    pre ++ r :: post ++ l = l1 ++ fold_left step l r :: l2
    /\ (forall y, In y l1 -> better (fold_left step l r) y = true)
    /\ (forall y, In y l2 -> better y (fold_left step l r) = false).
Proof.
  induction l as [| c l IH]; intros pre r post Hpre Hpost; simpl.
  - exists pre, post. rewrite app_nil_r. auto.
  - unfold step at 2 4 6. destruct (better c r) eqn:B.
    + destruct (IH (pre ++ r :: post) c []) as [l1 [l2 [E H]]].
      * intros y Hy. apply in_app_or in Hy as [Hy | [<- | Hy]]; eauto.
      * intros y [].
      * exists l1, l2. split; [| exact H]. rewrite <- E, <- !app_assoc. reflexivity.
    + destruct (IH pre r (post ++ [c])) as [l1 [l2 [E H]]].
      * exact Hpre.
      * intros y Hy. apply in_app_or in Hy as [Hy | [<- | []]]; auto.
      * exists l1, l2. split; [| exact H]. rewrite <- E, <- !app_assoc. reflexivity.
Qed.

Lemma pick_first_best (l : list PerSourceQuote) :
  l <> [] ->
  exists b l1 l2,
    pick better l = Some b /\ l = l1 ++ b :: l2
    /\ (forall y, In y l1 -> better b y = true)
    /\ (forall y, In y l2 -> better y b = false).
Proof.
  destruct l as [| x l]; [congruence |]. intros _.
  destruct (fold_first_best l [] x []) as [l1 [l2 [E H]]]; try (intros y []).
  exists (fold_left step l x), l1, l2. split; [reflexivity |]. split; [exact E | exact H].
Qed.

End Pick.

Lemma better_bid_true (c r : PerSourceQuote) :
  better_bid c r = true <->
  (bid r < bid c \/ (bid r == bid c /\ bid_size r < bid_size c))%Q.
Proof.
  unfold better_bid.
  destruct (Qcompare_spec (bid c) (bid r)) as [E | L | G].
  - destruct (Qcompare_spec (bid_size c) (bid_size r)) as [E' | L' | G'];
      split; try discriminate; try (intros [H | [H H']]; lra); intros _; right; lra.
  - split; [discriminate | intros [H | [H H']]; lra].
  - split; [intros _; left; lra | reflexivity].
Qed.

Lemma better_bid_false (c r : PerSourceQuote) :
  better_bid c r = false <->
  (bid c < bid r \/ (bid c == bid r /\ bid_size c <= bid_size r))%Q.
Proof.
  unfold better_bid.
  destruct (Qcompare_spec (bid c) (bid r)) as [E | L | G].
  - destruct (Qcompare_spec (bid_size c) (bid_size r)) as [E' | L' | G'];
      split; try discriminate; try (intros [H | [H H']]; lra); intros _; right; lra.
  - split; [intros _; left; lra | reflexivity].
  - split; [discriminate | intros [H | [H H']]; lra].
Qed.

Lemma better_ask_true (c r : PerSourceQuote) :
  better_ask c r = true <->
  (ask c < ask r \/ (ask c == ask r /\ ask_size c < ask_size r))%Q.
Proof.
  unfold better_ask.
  destruct (Qcompare_spec (ask c) (ask r)) as [E | L | G].
  - destruct (Qcompare_spec (ask_size c) (ask_size r)) as [E' | L' | G'];
      split; try discriminate; try (intros [H | [H H']]; lra); intros _; right; lra.
  - split; [intros _; left; lra | reflexivity].
  - split; [discriminate | intros [H | [H H']]; lra].
Qed.

Lemma better_ask_false (c r : PerSourceQuote) :
  better_ask c r = false <->
  (ask r < ask c \/ (ask r == ask c /\ ask_size r <= ask_size c))%Q.
Proof.
  unfold better_ask.
  destruct (Qcompare_spec (ask c) (ask r)) as [E | L | G].
  - destruct (Qcompare_spec (ask_size c) (ask_size r)) as [E' | L' | G'];
      split; try discriminate; try (intros [H | [H H']]; lra); intros _; right; lra.
  - split; [discriminate | intros [H | [H H']]; lra].
  - split; [intros _; left; lra | reflexivity].
Qed.

Lemma better_bid_trans (c r x : PerSourceQuote) :
  better_bid c r = true -> better_bid r x = true -> better_bid c x = true.
Proof.
  rewrite !better_bid_true. intros [H | [H H']] [K | [K K']]; try (left; lra); right; lra.
Qed.

Lemma better_bid_over (c r x : PerSourceQuote) :
  better_bid c r = true -> better_bid x r = false -> better_bid c x = true.
Proof.
  rewrite better_bid_false, !better_bid_true.
  intros [H | [H H']] [K | [K K']]; try (left; lra); right; lra.
Qed.

Lemma better_ask_trans (c r x : PerSourceQuote) :
  better_ask c r = true -> better_ask r x = true -> better_ask c x = true.
Proof.
  rewrite !better_ask_true. intros [H | [H H']] [K | [K K']]; try (left; lra); right; lra.
Qed.

Lemma better_ask_over (c r x : PerSourceQuote) :
  better_ask c r = true -> better_ask x r = false -> better_ask c x = true.
Proof.
  rewrite better_ask_false, !better_ask_true.
  intros [H | [H H']] [K | [K K']]; try (left; lra); right; lra.
Qed.

(** The entry of the pair is the new quote, and the entries of the other
    pairs stay. *)
Lemma replace_in (q : PerSourceQuote) (l : list PerSourceQuote) : In q (replace q l).
Proof.
  induction l as [| x r IH]; simpl; [auto |].
  destruct (same_pair q x); simpl; auto.
Qed.

Lemma replace_keeps (q x : PerSourceQuote) (l : list PerSourceQuote) :
  In x l -> same_pair q x = false -> In x (replace q l).
Proof.
  induction l as [| y r IH]; simpl; [contradiction |].
  intros [-> | H] Hx.
  - rewrite Hx. left. reflexivity.
  - destruct (same_pair q y); simpl; auto.
Qed.

Lemma entries_in (s : string) (x : PerSourceQuote) (l : list PerSourceQuote) :
  In x (entries s l) <-> In x l /\ symbol x = s.
Proof.
  unfold entries. rewrite filter_In. rewrite String.eqb_eq. reflexivity.
Qed.

Lemma ingest_quotes (s src : string) (bp bs ap az ts : Q) (st : t) :
  quotes (ingest s src bp bs ap az ts st)
  = replace {| symbol := s; source := src; bid := bp; bid_size := bs;
               ask := ap; ask_size := az; timestamp := ts |} (quotes st).
Proof.
  unfold ingest.
  destruct (recompute s _) as [a |]; [| reflexivity].
  destruct (match last_emitted s st with Some a0 => same_aggregate a a0 | None => false end);
    reflexivity.
Qed.

End NBBOFacts.

Lemma same_side_refl (a : NBBO.Side) : NBBO.same_side a a = true.
Proof.
  unfold NBBO.same_side. rewrite !Qeq_bool_refl, String.eqb_refl. reflexivity.
Qed.

Lemma same_aggregate_refl (a : NBBO.AggregateQuote) : NBBO.same_aggregate a a = true.
Proof.
  unfold NBBO.same_aggregate. rewrite String.eqb_refl, !same_side_refl. reflexivity.
Qed.


(** ** The theorems at work on the sample worlds *)



(** * Further properties of the handler *)

(** ** Registration and start *)

Lemma feed_start_spec (f : Feed) (w : World) :
  feed_start f w
  = (Ok tt,
     record (FeedStart (feed_id f)
             :: map TaskCreated (seq (List.length (Asyncio.tasks (loop w)))
                                   (List.length (feed_conn f))))
       (with_loop (Asyncio.with_tasks
                     (Asyncio.tasks (loop w) ++ map Asyncio.fresh_task (feed_conn f))
                     (loop w)) w)).
Proof.
  unfold feed_start, bind, emit. rewrite create_conn_tasks. f_equal.
  apply world_eq; simpl; auto. rewrite <- app_assoc. reflexivity.
Qed.


(** X2.  A handler that has just been built has no feed and cannot run.
    A first registration that succeeds makes [run], in embedding mode,
    return normally with exactly the registered feed started; one that
    fails (an unknown name) leaves the handler as unable to run as it
    was. *)
Theorem first_registration_enables_run (e : Env) (l : Asyncio.Loop) (cfg : Config)
        (feed : feed_spec) (kw : kwargs) (ish : bool) (eh : option string) :
  let w0 := FeedHandler_init e l cfg in
  let w1 := snd (add_feed feed kw w0) in
  fst (run false ish eh w0) = Exc (ValueError (no_feed_txt e)) /\
  match fst (add_feed feed kw w0) with
  | Ok _ =>
      exists f,
        feeds (self w1) = [f] /\
        fst (run false ish eh w1) = Ok tt /\
        trace (snd (run false ish eh w1))
        = trace w0 ++ (if ish then signal_events e else [])
          ++ FeedStart (feed_id f)
             :: map TaskCreated (seq (List.length (Asyncio.tasks l))
                                   (List.length (feed_conn f)))
  | _ => w1 = w0 /\ fst (run false ish eh w1) = Exc (ValueError (no_feed_txt e))
  end.
Proof.
  cbv zeta. split; [reflexivity |].
  unfold add_feed, append_feed, raise. destruct feed as [name | f].
  - simpl. destruct (lookup name (_EXCHANGES e)) as [cls |]; cbn [fst snd].
    + eexists. split; [reflexivity |].
      rewrite run_embedded by (simpl; discriminate). cbn [fst snd].
      split; [reflexivity |]. unfold run_started. simpl. rewrite app_nil_r. reflexivity.
    + split; reflexivity.
  - simpl. exists f. split; [reflexivity |].
    rewrite run_embedded by (simpl; discriminate). cbn [fst snd].
    split; [reflexivity |]. unfold run_started. simpl. rewrite app_nil_r. reflexivity.
Qed.

(** X3.  The three registration methods only append to [self.feeds]: the
    feeds registered before stay, in their order, and the configuration and
    the [retries] flag are not touched.  [add_feed] and [add_feed_running]
    add at most one feed; an [add_nbbo] adds one feed per feed class. *)
Theorem registration_only_appends (feed : feed_spec) (kw : kwargs)
        (fds : list FeedClass) (syms : list string) (cb_fn : string) (w : World) :
  (exists added,
     feeds (self (snd (add_feed feed kw w))) = feeds (self w) ++ added
     /\ List.length added <= 1
     /\ config (self (snd (add_feed feed kw w))) = config (self w)
     /\ retries (self (snd (add_feed feed kw w))) = retries (self w)) /\
  (exists added,
     feeds (self (snd (add_feed_running feed kw w))) = feeds (self w) ++ added
     /\ List.length added <= 1
     /\ config (self (snd (add_feed_running feed kw w))) = config (self w)
     /\ retries (self (snd (add_feed_running feed kw w))) = retries (self w)) /\
  (exists added,
     feeds (self (snd (add_nbbo fds syms cb_fn w))) = feeds (self w) ++ added
     /\ List.length added = List.length fds
     /\ config (self (snd (add_nbbo fds syms cb_fn w))) = config (self w)
     /\ retries (self (snd (add_nbbo fds syms cb_fn w))) = retries (self w)).
Proof.
  assert (A : forall k, exists added,
             feeds (self (snd (add_feed feed k w))) = feeds (self w) ++ added
             /\ List.length added <= 1
             /\ config (self (snd (add_feed feed k w))) = config (self w)
             /\ retries (self (snd (add_feed feed k w))) = retries (self w)
             /\ (fst (add_feed feed k w) = Ok tt -> exists f, added = [f])).
  { intros k. unfold add_feed, append_feed, raise. destruct feed as [name | f].
    - destruct (lookup name (_EXCHANGES (env w))) as [cls |]; simpl.
      + eexists. repeat split; eauto.
      + exists []. rewrite app_nil_r. repeat split; auto. discriminate.
    - simpl. eexists. repeat split; eauto. }
  split; [| split].
  - destruct (A kw) as [added [H1 [H2 [H3 [H4 _]]]]]. exists added. auto.
  - unfold add_feed_running, add_feed_call, bind, raise.
    destruct kw as [| [k v] r]; cbn [map].
    + destruct (A []) as [added [H1 [H2 [H3 [H4 H5]]]]].
      destruct (add_feed feed [] w) as [[[] | e |] w1] eqn:E; cbn [fst snd] in *;
        try (exists added; auto; fail).
      destruct (H5 eq_refl) as [f ->]. rewrite H1, rev_app_distr. simpl.
      rewrite feed_start_spec. simpl. exists [f]. auto.
    + exists []. rewrite app_nil_r. simpl. auto.
  - unfold add_nbbo, bind, NBBO_new.
    rewrite (for_each_add_instance
               (fun feed e => new_feed feed (nbbo_kwargs (L2_BOOK e) syms
                                               (List.length (heap w))))).
    simpl. eexists. split; [reflexivity |]. rewrite length_map. auto.
Qed.

(** Without keyword arguments [add_feed_running] registers as [add_feed]
    does and then starts the feed it has just appended. *)
Lemma add_feed_running_plain (feed : feed_spec) (f : Feed) (w : World) :
  add_feed feed [] w = (Ok tt, registered f w) ->
  add_feed_running feed [] w
  = (Ok tt,
     record (FeedStart (feed_id f)
             :: map TaskCreated (seq (List.length (Asyncio.tasks (loop w)))
                                   (List.length (feed_conn f))))
       (with_loop (Asyncio.with_tasks
                     (Asyncio.tasks (loop w) ++ map Asyncio.fresh_task (feed_conn f))
                     (loop w)) (registered f w))).
Proof.
  intros H. unfold add_feed_running, add_feed_call, bind. cbn [map]. rewrite H.
  cbn [registered self feeds]. rewrite rev_app_distr. cbn [rev app].
  rewrite feed_start_spec. reflexivity.
Qed.

(** The feed that a successful [add_feed] appends depends on the
    dictionary of the exchanges and on the configuration of the handler
    only. *)
Lemma add_feed_ok (feed : feed_spec) (kw : kwargs) (w : World) :
  fst (add_feed feed kw w) = Ok tt ->
  exists f, forall w', env w' = env w -> config (self w') = config (self w) ->
                       add_feed feed kw w' = (Ok tt, registered f w').
Proof.
  unfold add_feed, append_feed, raise. destruct feed as [name | f].
  - destruct (lookup name (_EXCHANGES (env w))) as [cls |] eqn:L; [| discriminate].
    intros _. exists (new_feed cls (("config", PConfig (config (self w))) :: kw)).
    intros w' He Hc. rewrite He, L, <- Hc. reflexivity.
  - intros _. exists f. intros w' _ _. reflexivity.
Qed.

Lemma conn_tasks_app (a b : list Feed) : conn_tasks (a ++ b) = conn_tasks a ++ conn_tasks b.
Proof. apply flat_map_app. Qed.

Lemma start_events_app (a b : list Feed) : forall n,
  start_events n (a ++ b)
  = start_events n a ++ start_events (n + List.length (conn_tasks a)) b.
Proof.
  induction a as [| f a IH]; intros n; simpl.
  - rewrite Nat.add_0_r. reflexivity.
  - rewrite IH. unfold conn_tasks. simpl. rewrite length_app, length_map.
    rewrite <- app_assoc, Nat.add_assoc. reflexivity.
Qed.

(** X9.  Registering a feed on a handler whose feeds are started, with
    [add_feed_running] and no keyword arguments, comes to the same as
    registering it with [add_feed] before the start: the same world, with
    the same tasks on the loop in the same order and the same trace.  The
    feeds started before are not started again. *)
Theorem late_registration_matches_early (feed : feed_spec) (ish : bool)
        (eh eh' : option string) (w : World) :
  feeds (self w) <> [] ->
  fst (add_feed feed [] w) = Ok tt ->
  add_feed_running feed [] (snd (run false ish eh w))
  = (Ok tt, snd (run false ish eh' (snd (add_feed feed [] w)))).
Proof.
  intros Hf Hok. destruct (add_feed_ok feed [] w Hok) as [f Hadd].
  rewrite (run_embedded ish eh w Hf). cbn [snd].
  rewrite (add_feed_running_plain feed f (run_started ish w))
    by (apply Hadd; reflexivity).
  rewrite (Hadd w eq_refl eq_refl). cbn [snd].
  rewrite (run_embedded ish eh' (registered f w))
    by (cbn [registered self feeds]; intros E; apply app_eq_nil in E;
        destruct E as [_ E]; discriminate).
  cbn [snd]. f_equal. apply world_eq; try reflexivity.
  - unfold run_started, registered, with_loop, record. cbn [loop env self feeds].
    rewrite conn_tasks_app.
    replace (conn_tasks [f]) with (map Asyncio.fresh_task (feed_conn f))
      by (unfold conn_tasks; cbn [flat_map]; rewrite app_nil_r; reflexivity).
    generalize (if ish && negb (win32 (env w))
                then with_signal_handlers
                       (Asyncio.signal_handlers (loop w) ++ SIGNALS (env w)) (loop w)
                else loop w).
    intros l. unfold Asyncio.with_tasks. cbn [Asyncio.tasks Asyncio.stopping Asyncio.closed
      Asyncio.exception_handler Asyncio.signal_handlers Asyncio.asyncgens].
    rewrite app_assoc. reflexivity.
  - unfold run_started, registered, with_loop, record.
    cbn [trace loop env self feeds Asyncio.tasks Asyncio.with_tasks].
    rewrite start_events_app. cbn [start_events]. rewrite app_nil_r.
    rewrite length_app. rewrite <- (app_assoc (trace w)). f_equal.
    rewrite <- (app_assoc (if ish then signal_events (env w) else [])). reflexivity.
Qed.

Lemma late_registration_matches_early_witness :
  feeds (self Sample.quick_and_slow) <> [] /\
  fst (add_feed (ByName "FAILING") [] Sample.quick_and_slow) = Ok tt /\
  add_feed_running (ByName "FAILING") [] (snd (run false true None Sample.quick_and_slow))
  = (Ok tt,
     snd (run false true None (snd (add_feed (ByName "FAILING") [] Sample.quick_and_slow)))).
Proof.
  split; [vm_compute; discriminate |]. split; [reflexivity |].
  apply (late_registration_matches_early (ByName "FAILING") true None None
           Sample.quick_and_slow).
  - vm_compute. discriminate.
  - reflexivity.
Defined.

(** ** What the shutdown keeps *)

Lemma keeps_bind {A B} (I : World -> Prop) (m : M A) (f : A -> M B) :
  keeps I m -> (forall a, keeps I (f a)) -> keeps I (bind m f).
Proof.
  intros Hm Hf w H. unfold bind. specialize (Hm w H).
  destruct (m w) as [[a | e |] w1]; simpl in *; auto. apply Hf, Hm.
Qed.

Lemma keeps_try_except {A} (I : World -> Prop) (m : M A) (h : exn -> option (M A)) :
  keeps I m -> (forall e k, h e = Some k -> keeps I k) -> keeps I (try_except m h).
Proof.
  intros Hm Hh w H. unfold try_except. specialize (Hm w H).
  destruct (m w) as [[a | e |] w1]; simpl in *; auto.
  destruct (h e) as [k |] eqn:E; [| assumption]. eapply Hh; eassumption.
Qed.

Lemma keeps_try_finally {A} (I : World -> Prop) (m : M A) (fin : M unit) :
  keeps I m -> keeps I fin -> keeps I (try_finally m fin).
Proof.
  intros Hm Hf w H. unfold try_finally. specialize (Hm w H).
  destruct (m w) as [r w1]. simpl in Hm. specialize (Hf w1 Hm).
  destruct r as [a | e |]; [| | assumption];
    destruct (fin w1) as [[[] | e' |] w2]; simpl in *; assumption.
Qed.

Lemma keeps_run_once (I : World -> Prop) :
  (forall w w' evs, drives w w' evs -> I w -> I w') -> keeps I run_once.
Proof.
  intros HI w H. destruct (run_once w) as [r w'] eqn:R.
  destruct (run_once_drives _ _ _ R) as [evs D]. simpl. eapply HI; eassumption.
Qed.

Lemma keeps_run_iterations (I : World -> Prop) (n : nat) :
  (forall w w' evs, drives w w' evs -> I w -> I w') -> keeps I (run_iterations n).
Proof.
  intros HI. induction n as [| n IH]; simpl.
  - intros w H. exact H.
  - apply keeps_bind; [apply keeps_run_once, HI | intros _; exact IH].
Qed.

(** A property of the world that the drive of the loop keeps and that
    does not look at the trace, the stop request or the handler of the
    loop is kept by [run_forever] and by the [try] statement of [run]. *)
Lemma keeps_drive (I : World -> Prop) (eh : option string) :
  (forall w w' evs, drives w w' evs -> I w -> I w') ->
  (forall w evs, I w -> I (record evs w)) ->
  (forall w b, I w -> I (with_loop (Asyncio.with_stopping b (loop w)) w)) ->
  (forall w h, I w -> I (snd (set_exception_handler h w))) ->
  keeps I (drive eh).
Proof.
  intros Hd Hr Hs Hh. unfold drive. apply keeps_try_except.
  - apply keeps_bind.
    + destruct eh as [h |]; [intros w H; apply Hh, H | intros w H; exact H].
    + intros _. unfold run_forever. apply keeps_bind.
      * intros w H. apply Hr, H.
      * intros _. apply keeps_try_finally.
        -- intros w H. destruct (Asyncio.stopping (loop w)).
           ++ apply keeps_run_once; assumption.
           ++ apply keeps_bind; [apply keeps_run_iterations, Hd | | exact H].
              intros _ w' H'. destruct (drive_end (env w)); exact H'.
        -- intros w H. apply Hs, H.
  - intros e k E w H. destruct e; simpl in E; try discriminate; injection E as <-;
      apply Hr, H.
Qed.

(** The end of [stop]: the loop was driven from the world in which [stop]
    starts to wait, and the exit is recorded. *)
Lemma stop_final (w : World) :
  exists w1 evs,
    drives (stop_scheduled w) w1 evs
    /\ snd (stop w) = record [Leave "stop" (succeeded (fst (stop w)))] w1.
Proof.
  pose proof (stop_returns w) as H. rewrite stop_unfold in *.
  destruct (drive_until _ _ _ _) as [r0 w1] eqn:D.
  destruct (drive_until_drives _ _ _ _ _ _ D) as [evs [Dr _]].
  exists w1, evs. split; [exact Dr |].
  destruct r0 as [os | e |]; simpl in *; [reflexivity | reflexivity | congruence].
Qed.

(** The course of [close]: the last run of the loop, and then either the
    exception of a task, or the cancellations and the wait, which in turn
    ends in the finalization or in the exception of a task. *)
Lemma close_chain (w : World) :
  exists w2 last,
    drives (close_entered w) w2 last /\
    (snd (close w) = record [Leave "close" false] (cleared w2) \/
     exists w4 waits,
       drives (close_cancelled (cleared w2)) w4 waits /\
       ((fst (close w) = Ok tt /\ snd (close w) = close_finished w4) \/
        snd (close w) = record [Leave "close" false] w4)).
Proof.
  pose proof (close_returns w) as H. rewrite close_unfold in *.
  destruct (run_once (close_entered w)) as [r1 w2] eqn:R.
  destruct (run_once_drives _ _ _ R) as [last D1].
  exists w2, last. split; [exact D1 |].
  destruct r1 as [[] | e |]; [| left; reflexivity | exfalso; eapply run_once_no_hang; eauto].
  right.
  destruct (drive_until (Asyncio.loop_height (loop (close_cancelled (cleared w2)))) true
              (Asyncio.all_tasks (loop (cleared w2))) (close_cancelled (cleared w2)))
    as [r0 w4] eqn:D.
  destruct (drive_until_drives _ _ _ _ _ _ D) as [waits [D2 _]].
  exists w4, waits. split; [exact D2 |].
  destruct r0 as [os | e |]; simpl in *; [left; auto | right; reflexivity | congruence].
Qed.

Lemma close_self (w : World) : self (snd (close w)) = self w.
Proof.
  destruct (close_chain w) as [w2 [last [D1 [E | [w4 [waits [D2 [[_ E] | E]]]]]]]];
    rewrite E; cbn [self record close_finished cleared with_loop];
    rewrite ?(dr_self _ _ _ D2); cbn [self close_cancelled cleared with_loop];
    rewrite (dr_self _ _ _ D1); reflexivity.
Qed.

Lemma stop_self (w : World) :
  self (snd (stop w))
  = {| feeds := feeds (self w); config := config (self w); retries := Some 0%Z |}.
Proof.
  destruct (stop_final w) as [w1 [evs [D E]]]. rewrite E. cbn [self record].
  rewrite (dr_self _ _ _ D). reflexivity.
Qed.

Lemma drive_self (eh : option string) (w : World) : self (snd (drive eh w)) = self w.
Proof.
  apply (keeps_drive (fun w' => self w' = self w) eh); auto.
  intros w1 w2 evs D H. rewrite (dr_self _ _ _ D). exact H.
Qed.

(** The world at the end of the [try] statement of [run] and of the log
    record after it: the one the [finally] block leaves, but for that
    record. *)
Lemma finally_world (m fin : M unit) (w : World) :
  fst (m w) <> Hang ->
  exists evs,
    Forall (fun e => e = Log INFO "FH: leaving run()") evs /\
    snd ((try_finally m fin ;; LOG INFO "FH: leaving run()") w)
    = record evs (snd (fin (snd (m w)))).
Proof.
  intros H. unfold bind, try_finally.
  destruct (m w) as [[[] | e1 |] w1]; cbn [fst snd] in *; [| | congruence];
    destruct (fin w1) as [[[] | e |] w3]; cbn [fst snd];
    try (exists []; split; [constructor |];
         destruct w3; unfold record; simpl; rewrite app_nil_r; reflexivity).
  exists [Log INFO "FH: leaving run()"]. split; [repeat constructor | reflexivity].
Qed.

Lemma shutdown_self (w : World) :
  self (snd ((stop ;; close) w))
  = {| feeds := feeds (self w); config := config (self w); retries := Some 0%Z |}.
Proof.
  unfold bind. pose proof (stop_self w) as S.
  destruct (stop w) as [[[] | e |] w2]; cbn [fst snd] in *; try exact S.
  rewrite close_self. exact S.
Qed.

(** X4.  The shutdown never touches the registrations: after [stop],
    after [close] and after [run], in either mode and however they end,
    [self.feeds] and the configuration are what they were.  [close] leaves
    the whole handler object as it was. *)
Theorem shutdown_keeps_registrations (start_loop ish : bool) (eh : option string)
        (w : World) :
  owned (snd (stop w)) = owned w /\
  self (snd (close w)) = self w /\
  owned (snd (run start_loop ish eh w)) = owned w.
Proof.
  split; [| split].
  - unfold owned. rewrite stop_self. reflexivity.
  - apply close_self.
  - destruct (feeds (self w)) as [| f0 r] eqn:F.
    + unfold run. rewrite F. reflexivity.
    + assert (Hf : feeds (self w) <> []) by (rewrite F; discriminate).
      destruct start_loop.
      * rewrite (run_driving ish eh w Hf).
        destruct (finally_world (drive eh) (stop ;; close) (run_started ish w)
                    (drive_returns eh (run_started ish w))) as [evs [_ E]].
        rewrite E. unfold owned. cbn [self record]. rewrite shutdown_self, drive_self.
        reflexivity.
      * rewrite (run_embedded ish eh w Hf). reflexivity.
Qed.

(** X5.  After a [run] that drove the loop the [retries] flag of the
    handler is 0, however the drive ended and whether or not the shutdown
    failed: [stop] is always entered, and nothing after it resets the
    flag. *)
Theorem run_leaves_retries_zero (ish : bool) (eh : option string) (w : World) :
  feeds (self w) <> [] ->
  retries (self (snd (run true ish eh w))) = Some 0%Z.
Proof.
  intros Hf. rewrite (run_driving ish eh w Hf).
  destruct (finally_world (drive eh) (stop ;; close) (run_started ish w)
              (drive_returns eh (run_started ish w))) as [evs [_ E]].
  rewrite E. cbn [self record]. rewrite shutdown_self. reflexivity.
Qed.

Lemma run_leaves_retries_zero_witness :
  feeds (self Sample.failing_and_slow) <> [] /\
  retries (self (snd (run true true None Sample.failing_and_slow))) = Some 0%Z.
Proof.
  split; [vm_compute; discriminate |].
  apply (run_leaves_retries_zero true None Sample.failing_and_slow).
  vm_compute. discriminate.
Defined.

(** ** The tasks of the loop across the shutdown *)

Lemma flags_of (a a' b : list Asyncio.Task) (l1 l2 : Asyncio.Loop) :
  Asyncio.with_tasks a l1 = Asyncio.with_tasks a' l2 ->
  Asyncio.with_tasks b l1 = Asyncio.with_tasks b l2.
Proof.
  destruct l1, l2. unfold Asyncio.with_tasks. simpl. intros H.
  injection H as _ -> -> -> -> ->. reflexivity.
Qed.

Lemma stop_length (w : World) :
  List.length (Asyncio.tasks (loop (snd (stop w))))
  = List.length (Asyncio.tasks (loop w)) + List.length (feeds (self w)).
Proof.
  destruct (stop_final w) as [w1 [evs [D E]]]. rewrite E. cbn [loop record].
  rewrite (dr_length _ _ _ D). cbn [stop_scheduled loop Asyncio.with_tasks Asyncio.tasks].
  rewrite length_app, length_map. reflexivity.
Qed.

Lemma close_cancelled_length (w : World) :
  List.length (Asyncio.tasks (loop (close_cancelled w)))
  = List.length (Asyncio.tasks (loop w)).
Proof.
  cbn [close_cancelled loop]. symmetry.
  eapply Forall2_length. apply cancel_all_states.
Qed.

Lemma close_cancelled_finished (w : World) (n : nat) (o : outcome) :
  finished_at w n o -> finished_at (close_cancelled w) n o.
Proof.
  intros [t [Hn Ht]]. unfold finished_at. cbn [close_cancelled loop].
  pose proof (cancel_all_states (Asyncio.all_tasks (loop w)) (loop w)) as F.
  destruct (Forall2_nth_l _ _ _ F n t Hn) as [t' [Hn' Hs]].
  exists t'. split; [exact Hn' |]. rewrite Hs. exact Ht.
Qed.

(** X6.  [stop] is not idempotent: every call schedules one more
    shutdown task for every registered feed, whatever became of the
    tasks of an earlier call.  After two calls the loop holds two
    shutdown tasks per feed, and the second call announces the creation
    of its own, with the next task ids. *)
Theorem stop_twice_schedules_twice (w : World) :
  let n0 := List.length (Asyncio.tasks (loop w)) in
  let N := List.length (feeds (self w)) in
  let w1 := snd (stop w) in
  let w2 := snd (stop w1) in
  List.length (Asyncio.tasks (loop w1)) = n0 + N /\
  List.length (Asyncio.tasks (loop w2)) = n0 + N + N /\
  exists a b,
    trace w2 = trace w1 ++ a ++ map TaskCreated (seq (n0 + N) N) ++ b
    /\ Forall (fun e => forall t, e <> TaskCreated t) a.
Proof.
  cbv zeta. pose proof (stop_length w) as L1. pose proof (stop_length (snd (stop w))) as L2.
  assert (F : feeds (self (snd (stop w))) = feeds (self w)) by (rewrite stop_self; reflexivity).
  rewrite F in L2. split; [exact L1 |]. split; [rewrite L2, L1; reflexivity |].
  destruct (stop_final (snd (stop w))) as [w1' [evs [D E]]]. rewrite E.
  cbn [trace record]. rewrite (dr_trace _ _ _ D).
  cbn [stop_scheduled trace]. unfold stop_prelude. rewrite F, L1.
  exists [Enter "stop";
          Log INFO "FH: flag retries=0 to stop the tasks running the connection handlers";
          SetRetries 0;
          Log INFO "FH: create the tasks to properly shutdown the backends (to flush the local cache)"].
  eexists. split.
  - reassoc.
  - repeat constructor; intros t; discriminate.
Qed.

Lemma stop_finished (w : World) (n : nat) (o : outcome) :
  finished_at w n o -> finished_at (snd (stop w)) n o.
Proof.
  intros [t [Hn Ht]]. destruct (stop_final w) as [w1 [evs [D E]]]. rewrite E.
  assert (H : finished_at w1 n o).
  { apply (dr_keeps _ _ _ D). exists t. split; [| exact Ht].
    cbn [stop_scheduled loop Asyncio.with_tasks Asyncio.tasks].
    rewrite nth_error_app1; [exact Hn |]. apply nth_error_Some. congruence. }
  exact H.
Qed.

Lemma close_finished_at (w : World) (n : nat) (o : outcome) :
  finished_at w n o -> finished_at (snd (close w)) n o.
Proof.
  intros H.
  destruct (close_chain w) as [w2 [last [D1 [E | [w4 [waits [D2 [[_ E] | E]]]]]]]];
    rewrite E.
  - exact (dr_keeps _ _ _ D1 n o H).
  - apply (dr_keeps _ _ _ D2 n o (close_cancelled_finished (cleared w2) n o (dr_keeps _ _ _ D1 n o H))).
  - apply (dr_keeps _ _ _ D2 n o (close_cancelled_finished (cleared w2) n o (dr_keeps _ _ _ D1 n o H))).
Qed.

Lemma close_length (w : World) :
  List.length (Asyncio.tasks (loop (snd (close w))))
  = List.length (Asyncio.tasks (loop w)).
Proof.
  destruct (close_chain w) as [w2 [last [D1 [E | [w4 [waits [D2 [[_ E] | E]]]]]]]];
    rewrite E; cbn [loop record close_finished Asyncio.tasks].
  - exact (dr_length _ _ _ D1).
  - rewrite (dr_length _ _ _ D2), (close_cancelled_length (cleared w2)).
    exact (dr_length _ _ _ D1).
  - rewrite (dr_length _ _ _ D2), (close_cancelled_length (cleared w2)).
    exact (dr_length _ _ _ D1).
Qed.

(** X7.  The shutdown never rewrites the result of a task that is done:
    a task finished with an outcome before [stop], [close] or the two in
    a row has the same task id and the same outcome after it, however the
    call ends. *)
Theorem shutdown_keeps_outcomes (w : World) (n : nat) (o : outcome) :
  finished_at w n o ->
  finished_at (snd (stop w)) n o /\
  finished_at (snd (close w)) n o /\
  finished_at (snd ((stop ;; close) w)) n o.
Proof.
  intros H. split; [apply stop_finished, H |]. split; [apply close_finished_at, H |].
  unfold bind. pose proof (stop_finished w n o H) as S.
  destruct (stop w) as [[[] | e |] w1]; cbn [fst snd] in *; try exact S.
  apply close_finished_at, S.
Qed.

Lemma shutdown_keeps_outcomes_witness :
  finished_at (snd (stop Sample.quick_and_slow)) 0 Returned /\
  finished_at (snd (close (snd (stop Sample.quick_and_slow)))) 0 Returned.
Proof.
  assert (H : finished_at (snd (stop Sample.quick_and_slow)) 0 Returned).
  { vm_compute. eexists. split; reflexivity. }
  split; [exact H |].
  exact (proj1 (proj2 (shutdown_keeps_outcomes (snd (stop Sample.quick_and_slow)) 0 Returned H))).
Defined.


Lemma step_name (t : Asyncio.Task) :
  Asyncio.t_name (Asyncio.step_task t) = Asyncio.t_name t.
Proof. unfold Asyncio.step_task. destruct (Asyncio.t_state t); reflexivity. Qed.

Lemma iter_step_name (n : nat) (t : Asyncio.Task) :
  Asyncio.t_name (Nat.iter n Asyncio.step_task t) = Asyncio.t_name t.
Proof.
  induction n as [| n IH]; [reflexivity |].
  change (Nat.iter (S n) Asyncio.step_task t)
    with (Asyncio.step_task (Nat.iter n Asyncio.step_task t)).
  rewrite step_name. exact IH.
Qed.

(** X11.  The shutdown task of the feed at position [i] of [self.feeds]
    is the task [n0 + i] of the loop, [n0] tasks having been there before
    the call.  Where tasks have names (Python 3.8 on) it is still named
    shutdown_feed_ followed by the id of the feed when [stop] ends;
    elsewhere it has no name, and [stop] goes on all the same. *)
Theorem shutdown_tasks_named (w : World) (i : nat) (f : Feed) :
  nth_error (feeds (self w)) i = Some f ->
  exists t,
    nth_error (Asyncio.tasks (loop (snd (stop w))))
      (List.length (Asyncio.tasks (loop w)) + i) = Some t
    /\ Asyncio.t_name t
       = if have_set_name (env w) then Some ("shutdown_feed_" ^^ feed_id f) else None.
Proof.
  intros Hi. destruct (stop_final w) as [w1 [evs [D E]]]. rewrite E. cbn [loop record].
  assert (H0 : nth_error (Asyncio.tasks (loop (stop_scheduled w)))
                 (List.length (Asyncio.tasks (loop w)) + i)
               = Some (shutdown_task (env w) f)).
  { cbn [stop_scheduled loop Asyncio.with_tasks Asyncio.tasks].
    rewrite nth_error_app2 by lia.
    replace (List.length (Asyncio.tasks (loop w)) + i - List.length (Asyncio.tasks (loop w)))
      with i by lia.
    rewrite nth_error_map, Hi. reflexivity. }
  destruct (Forall2_nth_l _ _ _ (dr_steps _ _ _ D) _ _ H0) as [t' [Hn [k Hk]]].
  exists t'. split; [exact Hn |]. rewrite Hk, iter_step_name. reflexivity.
Qed.

Lemma shutdown_tasks_named_witness :
  nth_error (feeds (self Sample.started)) 1
  = Some (new_feed Sample.Slow [("config", PConfig Sample.cfg)]) /\
  exists t,
    nth_error (Asyncio.tasks (loop (snd (stop Sample.started)))) (2 + 1) = Some t
    /\ Asyncio.t_name t = Some "shutdown_feed_SLOW".
Proof.
  split; [reflexivity |].
  apply (shutdown_tasks_named Sample.started 1
           (new_feed Sample.Slow [("config", PConfig Sample.cfg)])).
  reflexivity.
Defined.

(** ** The outcome of a run *)

Lemma iter_step_no_exit (n : nat) (t : Asyncio.Task) :
  Asyncio.task_no_exit t = true ->
  Asyncio.task_no_exit (Nat.iter n Asyncio.step_task t) = true.
Proof.
  intros H. induction n as [| n IH]; [exact H |].
  change (Nat.iter (S n) Asyncio.step_task t)
    with (Asyncio.step_task (Nat.iter n Asyncio.step_task t)).
  apply AsyncioFacts.step_task_no_exit, IH.
Qed.

Lemma drives_no_exit (w w' : World) (evs : list event) :
  drives w w' evs ->
  Asyncio.loop_no_exit (loop w) = true -> Asyncio.loop_no_exit (loop w') = true.
Proof.
  intros D. unfold Asyncio.loop_no_exit. pose proof (dr_steps _ _ _ D) as F.
  induction F as [| t t' l l' [n Hn] _ IH]; [reflexivity |].
  cbn [forallb]. rewrite !andb_true_iff. intros [Ht Hl]. split; [| exact (IH Hl)].
  rewrite Hn. apply iter_step_no_exit, Ht.
Qed.

(** No task of the loop will end in [SystemExit] or [KeyboardInterrupt]:
    the drive of [run] keeps it so. *)
Lemma drive_keeps_no_exit (eh : option string) :
  keeps (fun w => Asyncio.loop_no_exit (loop w) = true) (drive eh).
Proof.
  apply keeps_drive; auto.
  intros w w' evs D. exact (drives_no_exit w w' evs D).
Qed.

Lemma run_iterations_no_exit (n : nat) : forall w,
  Asyncio.loop_no_exit (loop w) = true -> fst (run_iterations n w) = Ok tt.
Proof.
  induction n as [| n IH]; intros w H; [reflexivity |].
  cbn [run_iterations]. unfold bind.
  destruct (run_once_no_exit w H) as [w' [R H']]. rewrite R. apply IH, H'.
Qed.

Lemma run_forever_no_exit (w : World) :
  Asyncio.loop_no_exit (loop w) = true ->
  fst (run_forever w)
  = if Asyncio.stopping (loop w) then Ok tt
    else match drive_end (env w) with
         | None => Ok tt
         | Some e => Exc e
         end.
Proof.
  intros H. unfold run_forever, bind, emit, try_finally, clear_stopping.
  cbn [fst snd loop record env].
  destruct (Asyncio.stopping (loop w)).
  - destruct (run_once_no_exit (record [RunForever] w) H) as [w' [R _]].
    rewrite R. reflexivity.
  - pose proof (run_iterations_no_exit (drive_rounds (env w)) (record [RunForever] w) H)
      as R.
    unfold bind.
    destruct (run_iterations (drive_rounds (env w)) (record [RunForever] w))
      as [[[] | e |] w']; cbn [fst] in R; try discriminate.
    destruct (drive_end (env w)); reflexivity.
Qed.

Lemma drive_no_exit (eh : option string) (w : World) :
  Asyncio.loop_no_exit (loop w) = true ->
  fst (drive eh w)
  = run_result (if Asyncio.stopping (loop w) then None else drive_end (env w)).
Proof.
  intros H. unfold drive, try_except, bind.
  set (w0 := snd (match eh with Some h => set_exception_handler h | None => ret tt end w)).
  assert (E : match eh with Some h => set_exception_handler h | None => ret tt end w
              = (Ok tt, w0)) by (destruct eh; reflexivity).
  rewrite E.
  assert (H0 : Asyncio.loop_no_exit (loop w0) = true) by (destruct eh; exact H).
  pose proof (run_forever_no_exit w0 H0) as F.
  replace (Asyncio.stopping (loop w0)) with (Asyncio.stopping (loop w)) in F
    by (destruct eh; reflexivity).
  replace (env w0) with (env w) in F by (destruct eh; reflexivity).
  destruct (run_forever w0) as [r w']. cbn [fst] in F. subst r.
  destruct (Asyncio.stopping (loop w)); [reflexivity |].
  destruct (drive_end (env w)) as [e |]; [| reflexivity].
  destruct e; reflexivity.
Qed.

Lemma sound_feeds_no_exit (fs : list Feed) :
  forallb sound_feed fs = true ->
  forallb (fun f => no_exit (feed_shutdown f)) fs = true
  /\ forallb Asyncio.task_no_exit (conn_tasks fs) = true
  /\ Forall (fun o => o = Returned) (map (fun f => final (feed_shutdown f)) fs).
Proof.
  induction fs as [| f fs IH]; [intros _; repeat split; constructor |].
  cbn [forallb]. unfold sound_feed at 1. rewrite !andb_true_iff.
  intros [[[Hc Hs] Hr] Hfs]. destruct (IH Hfs) as [I1 [I2 I3]].
  split; [split; assumption |]. split.
  - unfold conn_tasks. cbn [flat_map]. rewrite forallb_app. fold (conn_tasks fs).
    rewrite I2, andb_true_r. clear - Hc.
    induction (feed_conn f) as [| c cs IHc]; [reflexivity |].
    cbn [forallb map] in *. apply andb_true_iff in Hc. destruct Hc as [H1 H2].
    rewrite (IHc H2), andb_true_r. unfold Asyncio.task_no_exit. cbn. rewrite H1. reflexivity.
  - cbn [map]. constructor; [| exact I3].
    destruct (final (feed_shutdown f)); [reflexivity | discriminate].
Qed.

(** On a loop none of whose tasks ends in [SystemExit] or
    [KeyboardInterrupt], with feeds whose shutdown succeeds, [stop]
    returns normally. *)
Lemma stop_sound (w : World) :
  sound w = true ->
  fst (stop w) = Ok tt /\ Asyncio.loop_no_exit (loop (snd (stop w))) = true.
Proof.
  unfold sound. rewrite andb_true_iff. intros [Hl Hf].
  destruct (sound_feeds_no_exit _ Hf) as [Hs [_ Hr]].
  assert (Hn : Asyncio.loop_no_exit (loop (stop_scheduled w)) = true).
  { apply stop_scheduled_no_exit. unfold stop_no_exit. rewrite Hl, Hs. reflexivity. }
  split.
  - rewrite stop_unfold.
    destruct (drive_until_no_exit (Asyncio.loop_height (loop (stop_scheduled w))) false
                (shutdown_ids w) (stop_scheduled w) (stop_scheduled_valid w) (le_n _) Hn)
      as [n [_ [Ht Hr']]].
    destruct (drive_until _ _ _ _) as [[os | e |] w']; cbn [fst] in *;
      [reflexivity | | contradiction].
    exfalso. rewrite Ht in Hr'.
    pose proof (expects_error _ _ _ e
                  (expects_iter n _ _ _ (stop_scheduled_expects w)) Hr') as Hin.
    rewrite Forall_forall in Hr. specialize (Hr _ Hin). discriminate.
  - destruct (stop_final w) as [w1 [evs [D E]]]. rewrite E. cbn [loop record].
    exact (drives_no_exit _ _ _ D Hn).
Qed.

(** When [close] returns normally, the loop is closed and every task on
    it is done. *)
Lemma close_ok_done (w : World) :
  fst (close w) = Ok tt ->
  Asyncio.closed (loop (snd (close w))) = true
  /\ Forall (fun t => Asyncio.done t = true) (Asyncio.tasks (loop (snd (close w)))).
Proof.
  rewrite close_unfold.
  destruct (run_once (close_entered w)) as [[[] | e |] w2] eqn:R; cbn [fst snd];
    try discriminate.
  destruct (run_once_drives _ _ _ R) as [last D1].
  destruct (drive_until (Asyncio.loop_height (loop (close_cancelled (cleared w2)))) true
              (Asyncio.all_tasks (loop (cleared w2))) (close_cancelled (cleared w2)))
    as [[os | e |] w4] eqn:D; cbn [fst snd]; try discriminate.
  intros _. split; [reflexivity |].
  destruct (drive_until_drives _ _ _ _ _ _ D) as [waits [D2 G]].
  cbn [close_finished loop Asyncio.tasks].
  apply Forall_forall. intros t Hin.
  destruct (In_nth_error _ _ Hin) as [n Hn].
  assert (Hlt : n < List.length (Asyncio.tasks (loop (cleared w2)))).
  { rewrite <- (close_cancelled_length (cleared w2)), <- (dr_length _ _ _ D2).
    apply nth_error_Some. congruence. }
  destruct (nth_error (Asyncio.tasks (loop (cleared w2))) n) as [t0 |] eqn:H0;
    [| apply nth_error_None in H0; lia].
  destruct (pending_or_finished (cleared w2) n t0 H0) as [P | [o F]].
  - apply all_tasks_pending in P.
    pose proof (gather_result _ _ _ _ G) as F2.
    destruct (In_nth_error _ _ P) as [i Hi].
    destruct (Forall2_nth_l _ _ _ F2 i n Hi) as [o [_ [task [Ht [Hs _]]]]].
    rewrite Hn in Ht. injection Ht as <-. unfold Asyncio.done. rewrite Hs. reflexivity.
  - pose proof (dr_keeps _ _ _ D2 n o (close_cancelled_finished (cleared w2) n o F))
      as [t' [Ht Hs]].
    rewrite Hn in Ht. injection Ht as <-. unfold Asyncio.done. rewrite Hs. reflexivity.
Qed.

Lemma run_started_sound (ish : bool) (w : World) :
  sound w = true -> sound (run_started ish w) = true.
Proof.
  unfold sound. rewrite !andb_true_iff. intros [Hl Hf]. split; [| exact Hf].
  destruct (sound_feeds_no_exit _ Hf) as [_ [Hc _]].
  unfold Asyncio.loop_no_exit in *. cbn [run_started loop Asyncio.with_tasks Asyncio.tasks].
  rewrite forallb_app, Hl, Hc. reflexivity.
Qed.



(** ** The order of a run *)

Lemma finishes_after_start (evs : list event) :
  Forall is_finish evs -> Forall after_start evs.
Proof.
  apply Forall_impl. intros e [n [o ->]]. reflexivity.
Qed.

Lemma map_after_start {A} (f : A -> event) (l : list A) :
  (forall a, after_start (f a)) -> Forall after_start (map f l).
Proof.
  intros H. induction l; simpl; constructor; auto.
Qed.

Lemma emits_stop_late : emits after_start stop.
Proof.
  intros w. destruct (stop_final w) as [w1 [evs [D E]]].
  exists (stop_prelude w ++ evs ++ [Leave "stop" (succeeded (fst (stop w)))]). split.
  - rewrite E. cbn [trace record]. rewrite (dr_trace _ _ _ D).
    cbn [stop_scheduled trace]. reassoc.
  - apply Forall_app. split.
    + unfold stop_prelude. apply Forall_app. split; [repeat constructor |].
      apply Forall_app. split; [| repeat constructor].
      apply map_after_start. reflexivity.
    + apply Forall_app. split; [| repeat constructor].
      apply finishes_after_start, (dr_events _ _ _ D).
Qed.

Lemma cancel_events_after_start (pending : list nat) :
  Forall after_start (cancel_events pending).
Proof.
  unfold cancel_events. apply Forall_app. split; [repeat constructor |].
  apply Forall_app. split; [| repeat constructor].
  apply map_after_start. reflexivity.
Qed.

Lemma emits_close_late : emits after_start close.
Proof.
  intros w.
  destruct (close_chain w) as [w2 [last [D1 [E | [w4 [waits [D2 [[_ E] | E]]]]]]]].
  - exists (opening_events ++ last ++ [Leave "close" false]). split.
    + rewrite E. cbn [trace record cleared with_loop]. rewrite (dr_trace _ _ _ D1).
      cbn [close_entered trace]. unfold opening_events. reassoc.
    + apply Forall_app. split; [repeat constructor |].
      apply Forall_app. split; [| repeat constructor].
      apply finishes_after_start, (dr_events _ _ _ D1).
  - exists (opening_events ++ last ++ cancel_events (Asyncio.all_tasks (loop (cleared w2)))
              ++ waits ++ finalize_events). split.
    + rewrite E. cbn [trace close_finished]. rewrite (dr_trace _ _ _ D2).
      cbn [close_cancelled trace cleared with_loop]. rewrite (dr_trace _ _ _ D1).
      cbn [close_entered trace]. unfold opening_events. reassoc.
    + apply Forall_app. split; [repeat constructor |].
      apply Forall_app. split; [apply finishes_after_start, (dr_events _ _ _ D1) |].
      apply Forall_app. split; [apply cancel_events_after_start |].
      apply Forall_app. split; [apply finishes_after_start, (dr_events _ _ _ D2) |].
      repeat constructor.
  - exists (opening_events ++ last ++ cancel_events (Asyncio.all_tasks (loop (cleared w2)))
              ++ waits ++ [Leave "close" false]). split.
    + rewrite E. cbn [trace record]. rewrite (dr_trace _ _ _ D2).
      cbn [close_cancelled trace cleared with_loop]. rewrite (dr_trace _ _ _ D1).
      cbn [close_entered trace]. unfold opening_events. reassoc.
    + apply Forall_app. split; [repeat constructor |].
      apply Forall_app. split; [apply finishes_after_start, (dr_events _ _ _ D1) |].
      apply Forall_app. split; [apply cancel_events_after_start |].
      apply Forall_app. split; [apply finishes_after_start, (dr_events _ _ _ D2) |].
      repeat constructor.
Qed.

(** The trace of the [try] statement of [run]: the exception handler, if
    any, then the drive. *)
Lemma drive_shape (eh : option string) (w : World) :
  exists rest,
    trace (snd (drive eh w)) = trace w ++ handler_events eh ++ RunForever :: rest
    /\ Forall after_start rest.
Proof.
  unfold drive, try_except, bind.
  set (w0 := snd (match eh with Some h => set_exception_handler h | None => ret tt end w)).
  assert (E : match eh with Some h => set_exception_handler h | None => ret tt end w
              = (Ok tt, w0)) by (destruct eh; reflexivity).
  rewrite E.
  assert (T0 : trace w0 = trace w ++ handler_events eh).
  { subst w0. destruct eh; simpl; [reflexivity | rewrite app_nil_r; reflexivity]. }
  assert (F : emits after_start
                (try_finally
                   (fun w =>
                      if Asyncio.stopping (loop w) then run_once w
                      else
                        (run_iterations (drive_rounds (env w)) ;;
                         match drive_end (env w) with
                         | None => ret tt
                         | Some e => raise e
                         end) w)
                   clear_stopping)).
  { apply emits_try_finally; [| apply emits_silent; reflexivity].
    intros w1. destruct (Asyncio.stopping (loop w1));
      [apply emits_run_once; reflexivity |].
    apply emits_bind.
    - induction (drive_rounds (env w1)) as [| n IH]; simpl; [apply emits_ret |].
      apply emits_bind; [apply emits_run_once; reflexivity | auto].
    - intros _. destruct (drive_end (env w1)); [apply emits_raise | apply emits_ret]. }
  destruct (F (record [RunForever] w0)) as [rest [T1 F1]].
  assert (T : trace (snd (run_forever w0))
              = trace w ++ handler_events eh ++ RunForever :: rest).
  { unfold run_forever, bind, emit. cbn [fst snd] in *.
    destruct (try_finally _ _ _) as [[[] | e |] w1]; cbn [fst snd] in *; rewrite T1;
      cbn [trace record]; rewrite T0;
      rewrite <- (app_assoc (trace w ++ handler_events eh)), <- (app_assoc (trace w));
      reflexivity. }
  destruct (run_forever w0) as [[[] | e |] w1]; cbn [fst snd] in *; eauto.
  assert (L : forall lv m, exists rest',
             trace (snd (LOG lv m w1))
             = trace w ++ handler_events eh ++ RunForever :: rest'
             /\ Forall after_start rest').
  { intros lv m. exists (rest ++ [Log lv m]). split.
    - unfold LOG, emit, record. cbn [snd trace]. rewrite T.
      rewrite <- (app_assoc (trace w)), <- (app_assoc (handler_events eh)). reflexivity.
    - apply Forall_app. split; [assumption | repeat constructor]. }
  destruct e; cbn [is_Exception]; cbn [fst snd]; eauto.
Qed.

Lemma feed_starts_late (l : list event) : Forall after_start l -> feed_starts l = [].
Proof.
  induction 1 as [| e l He _ IH]; [reflexivity |].
  unfold feed_starts in *. cbn [flat_map]. rewrite IH.
  destruct e; try reflexivity. discriminate.
Qed.

Lemma feed_starts_signals (e : Env) : feed_starts (signal_events e) = [].
Proof.
  unfold signal_events. induction (SIGNALS e); [reflexivity | exact IHl].
Qed.

(** X12.  In a run that drives the loop everything is started before
    the drive: the trace of [run] is the installation of the signal
    handlers (if asked for), the start of every registered feed with the
    creation of its tasks, in the order of registration, the installation
    of the exception handler (if given) and only then [run_forever].
    Nothing after that, neither the drive nor the shutdown, starts a feed
    or installs a signal handler, so that every feed is started exactly
    once. *)
Theorem run_starts_before_drive (ish : bool) (eh : option string) (w : World) :
  feeds (self w) <> [] ->
  exists rest,
    let new := (if ish then signal_events (env w) else [])
               ++ start_events (List.length (Asyncio.tasks (loop w))) (feeds (self w))
               ++ handler_events eh ++ RunForever :: rest in
    trace (snd (run true ish eh w)) = trace w ++ new
    /\ Forall after_start rest
    /\ feed_starts new = map feed_id (feeds (self w)).
Proof.
  intros Hf. rewrite (run_driving ish eh w Hf).
  destruct (finally_world (drive eh) (stop ;; close) (run_started ish w)
              (drive_returns eh (run_started ish w))) as [evs [Fe E]].
  rewrite E. clear E.
  destruct (drive_shape eh (run_started ish w)) as [r1 [T1 F1]].
  assert (Hfin : emits after_start (stop ;; close)).
  { apply emits_bind; [apply emits_stop_late | intros _; apply emits_close_late]. }
  destruct (Hfin (snd (drive eh (run_started ish w)))) as [r2 [T2 F2]].
  exists (r1 ++ r2 ++ evs). cbv zeta.
  assert (Fr : Forall after_start (r1 ++ r2 ++ evs)).
  { apply Forall_app. split; [assumption |]. apply Forall_app. split; [assumption |].
    revert Fe. apply Forall_impl. intros e ->. reflexivity. }
  split; [| split; [exact Fr |]].
  - cbn [trace record]. rewrite T2, T1. cbn [run_started trace].
    rewrite <- !(app_assoc (trace w)). f_equal.
    rewrite <- !(app_assoc (if ish then signal_events (env w) else [])). f_equal.
    rewrite <- !(app_assoc (start_events _ _)). f_equal.
    rewrite <- !(app_assoc (handler_events eh)). f_equal.
    cbn [app]. f_equal. rewrite <- app_assoc. reflexivity.
  - rewrite !feed_starts_app, feed_starts_start_events.
    replace (feed_starts (if ish then signal_events (env w) else [])) with (@nil string)
      by (destruct ish; [rewrite feed_starts_signals |]; reflexivity).
    replace (feed_starts (handler_events eh)) with (@nil string)
      by (destruct eh; reflexivity).
    change (RunForever :: r1 ++ r2 ++ evs) with ([RunForever] ++ r1 ++ r2 ++ evs).
    rewrite feed_starts_app, (feed_starts_late _ Fr). cbn [app feed_starts flat_map].
    rewrite app_nil_r. reflexivity.
Qed.

Lemma run_starts_before_drive_witness :
  feeds (self Sample.quick_and_slow) <> [] /\
  exists rest,
    trace (snd (run true false (Some "handler") Sample.quick_and_slow))
    = [FeedStart "QUICK"; TaskCreated 0; FeedStart "SLOW"; TaskCreated 1;
       ExceptionHandlerSet "handler"; RunForever] ++ rest
    /\ Forall after_start rest.
Proof.
  split; [vm_compute; discriminate |].
  destruct (run_starts_before_drive false (Some "handler") Sample.quick_and_slow)
    as [rest [T [F _]]]; [vm_compute; discriminate |].
  exists rest. split; [exact T | exact F].
Defined.

(** X13.  The feeds that [add_nbbo] registers are started by [run] like
    any other, after those registered before: in embedding mode [run]
    starts the feeds that were there and then one feed per class given to
    [add_nbbo], in the order given.  It fails, starting nothing, exactly
    when there were no feeds and no class was given. *)
Theorem run_starts_nbbo_feeds (fds : list FeedClass) (syms : list string)
        (cb_fn : string) (ish : bool) (eh : option string) (w : World) :
  let w1 := snd (add_nbbo fds syms cb_fn w) in
  exists new,
    trace (snd (run false ish eh w1)) = trace w ++ new /\
    feed_starts new = map feed_id (feeds (self w)) ++ map cls_id fds /\
    fst (run false ish eh w1)
    = if List.length (feeds (self w)) + List.length fds =? 0
      then Exc (ValueError (no_feed_txt (env w))) else Ok tt.
Proof.
  cbv zeta. unfold add_nbbo, bind, NBBO_new. cbn [fst snd].
  rewrite (for_each_add_instance
             (fun feed e => new_feed feed (nbbo_kwargs (L2_BOOK e) syms
                                             (List.length (heap w))))).
  cbn [snd env with_heap].
  set (fs := feeds (self w)
             ++ map (fun feed => new_feed feed (nbbo_kwargs (L2_BOOK (env w)) syms
                                                  (List.length (heap w)))) fds).
  set (w1 := {| env := env w; self := _; loop := _; heap := _; trace := _ |}).
  assert (Hl : List.length fs = List.length (feeds (self w)) + List.length fds)
    by (subst fs; rewrite length_app, length_map; reflexivity).
  assert (Hm : map feed_id fs = map feed_id (feeds (self w)) ++ map cls_id fds).
  { subst fs. rewrite map_app, map_map. reflexivity. }
  rewrite <- Hl, <- Hm.
  destruct fs as [| f0 fs'] eqn:Efs.
  - exists [Log CRITICAL (no_feed_txt (env w))]. unfold run.
    change (feeds (self w1)) with fs. rewrite Efs. repeat split.
  - rewrite (run_embedded ish eh w1)
      by (change (feeds (self w1)) with fs; rewrite Efs; discriminate).
    eexists. split; [reflexivity |]. split; [| reflexivity].
    rewrite feed_starts_app, feed_starts_start_events.
    change (feeds (self w1)) with fs. rewrite Efs.
    destruct ish; [change (env w1) with (env w); rewrite feed_starts_signals |]; reflexivity.
Qed.

(** X14.  [add_feed_running] fails exactly as its call of [add_feed]
    fails: with the [TypeError] of the surplus positional arguments when
    keyword arguments are given, and otherwise with what [add_feed] raises
    for the feed.  A call that fails leaves the world as it was: nothing
    is registered and nothing is started.  The look-up of the last feed
    never fails, since it comes after a registration that succeeded. *)
Theorem add_feed_running_outcomes (feed : feed_spec) (kw : kwargs) (w : World) :
  fst (add_feed_running feed kw w)
  = match kw with
    | [] => fst (add_feed feed [] w)
    | _ :: _ => Exc (too_many_arguments (2 + List.length kw))
    end /\
  (succeeded (fst (add_feed_running feed kw w)) = false ->
   snd (add_feed_running feed kw w) = w) /\
  (forall msg, fst (add_feed_running feed kw w) <> Exc (IndexError msg)).
Proof.
  assert (A : (exists f, add_feed feed [] w = (Ok tt, registered f w))
              \/ add_feed feed [] w = (Exc (ValueError "Invalid feed specified"), w)).
  { unfold add_feed, append_feed, raise. destruct feed as [name | f].
    - destruct (lookup name (_EXCHANGES (env w))); [left; eexists; reflexivity | auto].
    - left. exists f. reflexivity. }
  destruct kw as [| [k v] r].
  - destruct A as [[f A] | A].
    + rewrite (add_feed_running_plain feed f w A), A. cbn [fst snd succeeded].
      repeat split; [discriminate | intros msg; discriminate].
    + unfold add_feed_running, add_feed_call, bind. cbn [map]. rewrite A.
      cbn [fst snd]. repeat split. intros msg. discriminate.
  - unfold add_feed_running, add_feed_call, bind, raise, too_many_arguments.
    cbn [map fst snd List.length]. rewrite length_map.
    repeat split. intros msg. discriminate.
Qed.
